(** * Histograma acumulado por rangos: mapeo, reduccion y escaneo

    Shallow embedding of [2.1/A/main.cpp]: the bucket classifier
    [calcularIndiceRango], the sequential pipeline [ejecutarSecuencial] and the
    TBB pipeline [ejecutarParalelo], the labels of [mostrarConfiguracion],
    the input generation and [main], followed by the properties of the
    three-phase computation.

    Modelling conventions.
    - A C++ [int] is a [Z], and the sums and products of the model are those
      of [Z]: they are the ones of the code as long as every value involved
      is an [int] ([es_int]).  The division of the classifier, which can go
      wrong on [int]s, is modelled by [dividir].  The number of elements of
      the input is an [int] in the code ([int totalElementos = datos.size()]):
      the model is the code for inputs of at most [INT_MAX] elements, and on
      these every counter of the pipeline lies between zero and the number
      of elements ([resultado_acotado]).  A theorem whose statement depends
      on it carries the bound that keeps the values within [int].
    - [std::vector<int>] and [std::array<int, CANTIDAD_RANGOS>] are lists,
      read with [leer] and written with [escribir].  An access outside the
      bounds is undefined behaviour in C++: the model yields [None] there, and
      [None] propagates to the result of the run.
    - The local variables of a run live in a store [Memoria]; every loop body
      is a store transformer, so that what a stage reads and what it writes is
      explicit.
    - The TBB algorithms take, besides the arguments they have in the source,
      the decomposition chosen by the scheduler: the sub-ranges of a
      [parallel_for] and the order in which they take effect, the task tree of
      a [parallel_reduce], the sub-ranges of a [parallel_scan] and the passes
      run on each.  Tasks that run concurrently are represented by the
      sequential orders in which they can take effect. *)

From Stdlib Require Import ZArith Lia.
From stdpp Require Import base option list sorting.

Local Open Scope Z_scope.

(** ** Machine integers and arrays *)

Definition INT_MIN : Z := -2147483648.
Definition INT_MAX : Z := 2147483647.

(** The values of the type [int]. *)
Definition es_int (z : Z) : Prop := INT_MIN ≤ z ≤ INT_MAX.

(** [a / b] on [int]: truncation towards zero; undefined for a zero divisor
    and for the one quotient that does not fit. *)
Definition dividir (a b : Z) : option Z :=
  if decide (b = 0) then None
  else if decide (a = INT_MIN ∧ b = -1) then None
  else Some (a `quot` b).

(** [a[i]] as an rvalue. *)
Definition leer {A : Type} (a : list A) (i : Z) : option A :=
  if decide (0 ≤ i) then a !! Z.to_nat i else None.

(** [a[i] = v]. *)
Definition escribir {A : Type} (a : list A) (i : Z) (v : A) : option (list A) :=
  if decide (0 ≤ i < Z.of_nat (length a)) then Some (<[Z.to_nat i := v]> a) else None.

(** ** Loops *)

(** A range-based [for] over the elements of [xs]. *)
Fixpoint para_cada {A S : Type} (xs : list A) (cuerpo : A → S → option S) (s : S)
  : option S :=
  match xs with
  | [] => Some s
  | x :: xs' => s' ← cuerpo x s; para_cada xs' cuerpo s'
  end.

(** [for (int i = desde; i < hasta; ++i)]. *)
Definition bucle {S : Type} (desde hasta : Z) (cuerpo : Z → S → option S) (s : S)
  : option S :=
  para_cada (seqZ desde (hasta - desde)) cuerpo s.

(** ** Decompositions chosen by the TBB scheduler *)

(** [tbb::blocked_range<int>(lo, hi)], the half-open interval [lo, hi). *)
Definition Rango : Type := Z * Z.

Definition indices (r : Rango) : list Z := seqZ r.1 (r.2 - r.1).

(** [particion lo hi rs]: the ranges [rs], in this order, split [lo, hi) into
    consecutive pieces. *)
Fixpoint particion (lo hi : Z) (rs : list Rango) : bool :=
  match rs with
  | [] => bool_decide (lo = hi)
  | r :: rs' => bool_decide (r.1 = lo ∧ lo ≤ r.2) && particion r.2 hi rs'
  end.

(** The task tree of a [parallel_reduce]: a leaf runs the body on a sub-range
    from the identity; a task that keeps its body runs it on the next
    sub-range from the value it has accumulated; two tasks are joined, the
    left one first. *)
Inductive PlanReduccion : Type :=
  | Hoja (lo hi : Z)
  | Sigue (p : PlanReduccion) (lo hi : Z)
  | Une (izq der : PlanReduccion).

(** The interval a task tree covers, when its sub-ranges are consecutive. *)
Fixpoint alcance (p : PlanReduccion) : option Rango :=
  match p with
  | Hoja lo hi => if decide (lo ≤ hi) then Some (lo, hi) else None
  | Sigue p' lo hi =>
      r ← alcance p';
      if decide (r.2 = lo ∧ lo ≤ hi) then Some (r.1, hi) else None
  | Une izq der =>
      r1 ← alcance izq;
      r2 ← alcance der;
      if decide (r1.2 = r2.1) then Some (r1.1, r2.2) else None
  end.

(** A sub-range of a [parallel_scan], and whether the scheduler runs the
    non-final pass on it before the final one. *)
Record Tramo : Type := tramo { t_lo : Z; t_hi : Z; t_pre : bool }.

Definition rango_de (t : Tramo) : Rango := (t_lo t, t_hi t).

(** ** The TBB algorithms *)

Section Algoritmos.
Context {S : Type}.

(** [tbb::parallel_for(range, body)]: the body runs once on every sub-range
    of the decomposition, in the order the scheduler picks.  (For the mapping
    loop even the single iterations may take effect in any order, see
    [mapeo_cualquier_orden].) *)
Definition parallel_for (plan : list Rango) (cuerpo : Z → Z → S → option S)
    (s : S) : option S :=
  para_cada plan (λ r, cuerpo r.1 r.2) s.

(** [tbb::parallel_reduce(range, identity, body, join)]: the value of the
    task tree; every task works on a value of its own. *)
Fixpoint parallel_reduce {V : Type} (plan : PlanReduccion) (identidad : V)
    (cuerpo : Z → Z → V → option V) (unir : V → V → option V) : option V :=
  match plan with
  | Hoja lo hi => cuerpo lo hi identidad
  | Sigue p lo hi => v ← parallel_reduce p identidad cuerpo unir; cuerpo lo hi v
  | Une izq der =>
      a ← parallel_reduce izq identidad cuerpo unir;
      b ← parallel_reduce der identidad cuerpo unir;
      unir a b
  end.

(** First pass of [tbb::parallel_scan]: the non-final body runs, from the
    identity, on the sub-ranges the scheduler selected. *)
Fixpoint pre_scan (plan : list Tramo) (identidad : Z)
    (cuerpo : Z → Z → Z → bool → S → option (Z * S)) (s : S)
  : option (list (Tramo * option Z) * S) :=
  match plan with
  | [] => Some ([], s)
  | t :: plan' =>
      if t_pre t then
        '(v, s1) ← cuerpo (t_lo t) (t_hi t) identidad false s;
        '(ps, s2) ← pre_scan plan' identidad cuerpo s1;
        Some ((t, Some v) :: ps, s2)
      else
        '(ps, s2) ← pre_scan plan' identidad cuerpo s;
        Some ((t, None) :: ps, s2)
  end.

(** Second pass: the final body runs on every sub-range in index order,
    seeded with the combination of everything on its left; the sum of a
    sub-range is the one of its first pass if it had one, and otherwise the
    value its final pass returns. *)
Fixpoint final_scan (parciales : list (Tramo * option Z)) (semilla : Z)
    (cuerpo : Z → Z → Z → bool → S → option (Z * S)) (combinar : Z → Z → Z)
    (s : S) : option (Z * S) :=
  match parciales with
  | [] => Some (semilla, s)
  | (t, parcial) :: resto =>
      '(v, s1) ← cuerpo (t_lo t) (t_hi t) semilla true s;
      let semilla' :=
        match parcial with Some x => combinar semilla x | None => v end in
      final_scan resto semilla' cuerpo combinar s1
  end.

(** [tbb::parallel_scan(range, identity, scan, combine)]. *)
Definition parallel_scan (plan : list Tramo) (identidad : Z)
    (cuerpo : Z → Z → Z → bool → S → option (Z * S)) (combinar : Z → Z → Z)
    (s : S) : option (Z * S) :=
  '(parciales, s1) ← pre_scan plan identidad cuerpo s;
  final_scan parciales identidad cuerpo combinar s1.
End Algoritmos.

(** The three decompositions of one parallel run. *)
Record Planificacion : Type := planificacion {
  plan_mapeo : list Rango;
  plan_reduccion : PlanReduccion;
  plan_escaneo : list Tramo
}.

(** ** The store of a run *)

Record Memoria : Type := memoria {
  datos : list Z;
  valoresMapeados : list (list Z);
  histograma : list Z;
  histogramaAcumulado : list Z
}.

Definition con_valoresMapeados (vm : list (list Z)) (m : Memoria) : Memoria :=
  {| datos := datos m; valoresMapeados := vm;
     histograma := histograma m; histogramaAcumulado := histogramaAcumulado m |}.

Definition con_histograma (h : list Z) (m : Memoria) : Memoria :=
  {| datos := datos m; valoresMapeados := valoresMapeados m;
     histograma := h; histogramaAcumulado := histogramaAcumulado m |}.

Definition con_histogramaAcumulado (ha : list Z) (m : Memoria) : Memoria :=
  {| datos := datos m; valoresMapeados := valoresMapeados m;
     histograma := histograma m; histogramaAcumulado := ha |}.

(** ** The program

    [CANTIDAD_RANGOS] is a compile-time constant of the source (4); the
    program is embedded for an arbitrary value of it and instantiated at the
    source's value below. *)

Section Programa.
Variable CANTIDAD_RANGOS : Z.

(** [std::array<int, CANTIDAD_RANGOS> a{}]. *)
Definition ceros : list Z := replicate (Z.to_nat CANTIDAD_RANGOS) 0.

Definition calcularIndiceRango (valor tamanoRango : Z) : option Z :=
  let valorAjustado := if decide (valor > 0) then valor - 1 else valor in
  cociente ← dividir valorAjustado tamanoRango;
  Some (cociente `min` (CANTIDAD_RANGOS - 1)).

(** Body of the mapping loop, shared by both backends. *)
Definition cuerpoMapeo (tamanoRango : Z) (i : Z) (m : Memoria) : option Memoria :=
  valor ← leer (datos m) i;
  indice ← calcularIndiceRango valor tamanoRango;
  temp ← escribir ceros indice 1;
  vm ← escribir (valoresMapeados m) i temp;
  Some (con_valoresMapeados vm m).

(** [for (j = 0; j < CANTIDAD_RANGOS; ++j) acumulado[j] += mapeado[j]]. *)
Definition sumarFila (mapeado : list Z) (acumulado : list Z) : option (list Z) :=
  bucle 0 CANTIDAD_RANGOS
    (λ j acc, x ← leer acc j; y ← leer mapeado j; escribir acc j (x + y))
    acumulado.

(** Body of the sequential reduction, for one element of [valoresMapeados]. *)
Definition cuerpoReduccionSec (mapeado : list Z) (m : Memoria) : option Memoria :=
  h ← sumarFila mapeado (histograma m);
  Some (con_histograma h m).

(** Body of the sequential scan; the state pairs the local [acumulador]
    with the store. *)
Definition cuerpoEscaneoSec (i : Z) (st : Z * Memoria) : option (Z * Memoria) :=
  let '(acumulador, m) := st in
  h ← leer (histograma m) i;
  let acumulador := acumulador + h in
  ha ← escribir (histogramaAcumulado m) i acumulador;
  Some (acumulador, con_histogramaAcumulado ha m).

(** The store at the start of a run: the input, and the three local arrays as
    their declarations initialise them ([valoresMapeados(totalElementos)],
    [histograma{}], [histogramaAcumulado{}]); the parallel backend overwrites
    [histograma] with the value of its [parallel_reduce]. *)
Definition memoriaInicial (datos : list Z) : Memoria :=
  {| datos := datos;
     valoresMapeados := replicate (length datos) ceros;
     histograma := ceros;
     histogramaAcumulado := ceros |}.

(** [totalElementos] is the number of elements as it is: the model is the
    code when that number is an [int], which the theorems on a run assume. *)
Definition ejecutarSecuencial (datos : list Z) (tamanoRango : Z) : option Memoria :=
  let totalElementos := Z.of_nat (length datos) in
  let m0 := memoriaInicial datos in
  (* PASO 1: Mapeo *)
  m1 ← bucle 0 totalElementos (cuerpoMapeo tamanoRango) m0;
  (* PASO 2: Reduccion *)
  m2 ← para_cada (valoresMapeados m1) cuerpoReduccionSec m1;
  (* PASO 3: Escaneo acumulativo *)
  '(_, m3) ← bucle 0 CANTIDAD_RANGOS cuerpoEscaneoSec (0, m2);
  Some m3.

(** Partial reduction lambda of the [parallel_reduce].  The sum is the one
    of [Z]: it is the one of the code when the entries added up stay within
    [int], as they do in a run ([resultado_acotado]). *)
Definition cuerpoReduccion (m : Memoria) (lo hi : Z) (parcial : list Z)
  : option (list Z) :=
  bucle lo hi
    (λ i parcial,
       bucle 0 CANTIDAD_RANGOS
         (λ j parcial,
            x ← leer parcial j;
            fila ← leer (valoresMapeados m) i;
            y ← leer fila j;
            escribir parcial j (x + y))
         parcial)
    parcial.

(** Combination lambda of the [parallel_reduce]; the sum is the one of [Z],
    as in the partial reduction. *)
Definition combinar (a b : list Z) : option (list Z) :=
  bucle 0 CANTIDAD_RANGOS
    (λ i combinado, x ← leer a i; y ← leer b i; escribir combinado i (x + y))
    ceros.

(** Scan lambda of the [parallel_scan].  The sum is the one of [Z]: it is the
    one of the code when the running sums stay within [int]. *)
Definition cuerpoEscaneo (esFinal : bool) (i : Z) (st : Z * Memoria)
  : option (Z * Memoria) :=
  let '(suma, m) := st in
  h ← leer (histograma m) i;
  let suma := suma + h in
  if esFinal then
    ha ← escribir (histogramaAcumulado m) i suma;
    Some (suma, con_histogramaAcumulado ha m)
  else Some (suma, m).

Definition escanearRango (lo hi : Z) (suma : Z) (esFinal : bool) (m : Memoria)
  : option (Z * Memoria) :=
  bucle lo hi (cuerpoEscaneo esFinal) (suma, m).

(** As for [ejecutarSecuencial], [totalElementos] is the number of elements
    as it is. *)
Definition ejecutarParalelo (plan : Planificacion) (datos : list Z)
    (tamanoRango : Z) : option Memoria :=
  let m0 := memoriaInicial datos in
  (* PASO 1: Mapeo en paralelo *)
  m1 ← parallel_for (plan_mapeo plan)
         (λ lo hi, bucle lo hi (cuerpoMapeo tamanoRango)) m0;
  (* PASO 2: Reduccion en paralelo *)
  h ← parallel_reduce (plan_reduccion plan) ceros
        (cuerpoReduccion m1) combinar;
  let m2 := con_histograma h m1 in
  (* PASO 3: Escaneo en paralelo *)
  '(_, m3) ← parallel_scan (plan_escaneo plan) 0 escanearRango Z.add m2;
  Some m3.

(** What the scheduler may do on an input of [n] elements: the sub-ranges of
    the [parallel_for] cover every index of [0, n) exactly once, in any
    order; the task tree of the [parallel_reduce] covers [0, n); the
    sub-ranges of the [parallel_scan] split [0, CANTIDAD_RANGOS). *)
Definition planificacion_valida (n : Z) (plan : Planificacion) : Prop :=
  (plan_mapeo plan ≫= indices) ≡ₚ seqZ 0 n
  ∧ alcance (plan_reduccion plan) = Some (0, n)
  ∧ particion 0 CANTIDAD_RANGOS (rango_de <$> plan_escaneo plan) = true.

(** Bucket labels printed by [mostrarConfiguracion].  The products are those
    of [Z]: they are the ones of the code when [(CANTIDAD_RANGOS - 1) *
    tamanoRango] is an [int], as it is for the width [main] computes. *)
Definition limiteInferior (valorMaximo tamanoRango i : Z) : Z :=
  if decide (i = 0) then 0
  else valorMaximo - (CANTIDAD_RANGOS - i) * tamanoRango + 1.

Definition limiteSuperior (valorMaximo tamanoRango i : Z) : Z :=
  valorMaximo - (CANTIDAD_RANGOS - 1 - i) * tamanoRango.

(** [std::ceil(static_cast<double>(valorMaximo) / CANTIDAD_RANGOS)] as in
    [main]; the quotient of two [int]s is far from the next integer by at
    least [1 / CANTIDAD_RANGOS], so rounding to [double] cannot change its
    ceiling. *)
Definition tamanoDeRango (valorMaximo : Z) : Z :=
  - ((- valorMaximo) `div` CANTIDAD_RANGOS).
End Programa.

(** The constants of the source. *)
Definition CANTIDAD_RANGOS : Z := 4.
Definition CANTIDAD_ELEMENTOS : Z := 10.
Definition VALOR_MAXIMO : Z := 120.
Definition TAMANO_RANGO : Z := tamanoDeRango CANTIDAD_RANGOS VALOR_MAXIMO.

(** ** The classifier as the specification words it *)

Definition clasificar_spec (B W x : Z) : Z :=
  let x' := if decide (x > 0) then x - 1 else 0 in
  let b := x' `div` W in
  b `min` (B - 1).

(** ** Closed forms used to state what the stages compute *)

(** Sum of a list of integers. *)
Definition sumaZ (l : list Z) : Z := foldr Z.add 0 l.

(** The elements of positions [lo, hi) of [l]. *)
Definition tramoDe {A : Type} (lo hi : Z) (l : list A) : list A :=
  take (Z.to_nat (hi - lo)) (drop (Z.to_nat lo) l).

(** Element-wise sum of two bucket vectors. *)
Definition sumaVec (a b : list Z) : list Z := zip_with Z.add a b.

(** Element-wise sum of a sequence of bucket vectors, from [inicio]. *)
Definition sumaFilas (inicio : list Z) (filas : list (list Z)) : list Z :=
  foldl sumaVec inicio filas.

(** Inclusive running sums of [l], from [s]. *)
Fixpoint prefijos (s : Z) (l : list Z) : list Z :=
  match l with
  | [] => []
  | x :: l' => (s + x) :: prefijos (s + x) l'
  end.

(** An array [a] whose positions below [j] have been overwritten with those
    of [t]: the state of a loop that fills an array from left to right. *)
Definition relleno {A : Type} (j : Z) (t a : list A) : list A :=
  take (Z.to_nat j) t ++ drop (Z.to_nat j) a.

(** The one-hot vector the mapping loop builds for one value. *)
Definition filaDe (B tamanoRango valor : Z) : option (list Z) :=
  indice ← calcularIndiceRango B valor tamanoRango;
  escribir (ceros B) indice 1.

(** What the first pass of the [parallel_scan] leaves for the second one:
    every sub-range with the sum of its part of [h], if it had a first pass. *)
Definition anotar (h : list Z) (plan : list Tramo) : list (Tramo * option Z) :=
  (λ t, (t, if t_pre t then Some (sumaZ (tramoDe (t_lo t) (t_hi t) h)) else None))
    <$> plan.

(** The store a run ends with, as a function of the input: one one-hot row
    per value, their element-wise sum, and the running sums of that sum.
    There is no result when some value has no valid bucket. *)
Definition resultado (B tamanoRango : Z) (datos : list Z) : option Memoria :=
  filas ← mapM (filaDe B tamanoRango) datos;
  let h := sumaFilas (ceros B) filas in
  Some {| datos := datos; valoresMapeados := filas;
          histograma := h; histogramaAcumulado := prefijos 0 h |}.

(** ** A run of the source's size

    Ten values in [0, 120], one decomposition a scheduler could choose for
    them, and the store both backends end with. *)

Definition datos_demo : list Z := [10; 40; 70; 100; 120; 0; 30; 60; 90; 115].

Definition plan_demo : Planificacion :=
  {| plan_mapeo := [(5, 8); (0, 2); (8, 10); (2, 5)];
     plan_reduccion := Une (Sigue (Hoja 0 2) 2 5) (Une (Hoja 5 8) (Hoja 8 10));
     plan_escaneo := [tramo 0 1 false; tramo 1 3 true; tramo 3 4 true] |}.

Definition memoria_demo : Memoria :=
  {| datos := datos_demo;
     valoresMapeados :=
       [[1; 0; 0; 0]; [0; 1; 0; 0]; [0; 0; 1; 0]; [0; 0; 0; 1]; [0; 0; 0; 1];
        [1; 0; 0; 0]; [1; 0; 0; 0]; [0; 1; 0; 0]; [0; 0; 1; 0]; [0; 0; 0; 1]];
     histograma := [3; 2; 2; 3];
     histogramaAcumulado := [3; 5; 7; 10] |}.

(** ** The rest of the program: input generation and [main] *)

(** [generarNumerosAleatorios].  The numbers drawn from the generator, each
    as [static_cast<int>(distribucion(generador))] gives it, are the
    parameter [muestra]: [muestra k] is the one drawn for the element [k].
    A negative [cantidad] is not a size a [std::vector] can be built with:
    there is no result then. *)
Definition generarNumerosAleatorios (muestra : nat → Z) (cantidad valorMaximo : Z)
  : option (list Z) :=
  if decide (0 ≤ cantidad) then
    Some ((λ k, valorMaximo `min` muestra k) <$> seq 0 (Z.to_nat cantidad))
  else None.

(** [std::sort(datos.begin(), datos.end())]: on integers the result is
    determined, it is the sorted permutation of the input. *)
Definition ordenar (l : list Z) : list Z := merge_sort Z.le l.

(** [main]: the generated data are sorted and handed to the parallel backend,
    which receives the vector by reference, and then, as the parallel run
    left them, to the sequential one.  The result pairs the stores of the two
    runs, which is what the program prints of them. *)
Definition main (muestra : nat → Z) (plan : Planificacion)
  : option (Memoria * Memoria) :=
  generados ← generarNumerosAleatorios muestra CANTIDAD_ELEMENTOS VALOR_MAXIMO;
  let ordenados := ordenar generados in
  mp ← ejecutarParalelo CANTIDAD_RANGOS plan ordenados TAMANO_RANGO;
  ms ← ejecutarSecuencial CANTIDAD_RANGOS (datos mp) TAMANO_RANGO;
  Some (mp, ms).

(** ** Counting, to state what the histograms hold *)

(** The number of values of [xs] the classifier sends to bucket [j]. *)
Definition cuenta (B W j : Z) (xs : list Z) : Z :=
  Z.of_nat (length (filter (λ x, calcularIndiceRango B x W = Some j) xs)).

(** The number of values of [xs] that are at most [c]. *)
Definition cuentaHasta (c : Z) (xs : list Z) : Z :=
  Z.of_nat (length (filter (λ x, x ≤ c) xs)).

(** A sample stream for the examples. *)
Definition muestra_demo (k : nat) : Z := 37 * Z.of_nat k.

(** * Properties *)

(** ** Arrays *)

Section Arreglos.
Context {A : Type}.
Implicit Types (a : list A) (i : Z) (v : A).

Lemma leer_nat a (k : nat) : leer a (Z.of_nat k) = a !! k.
Proof. unfold leer. rewrite decide_True by lia. by rewrite Nat2Z.id. Qed.

Lemma escribir_Some a i v a' :
  escribir a i v = Some a' ↔
  0 ≤ i < Z.of_nat (length a) ∧ a' = <[Z.to_nat i := v]> a.
Proof.
  unfold escribir. case_decide as Hi.
  - split; [by intros [= <-]|by intros [_ ->]].
  - split; [done|]. by intros [? _].
Qed.

Lemma escribir_nat a (k : nat) v :
  (k < length a)%nat → escribir a (Z.of_nat k) v = Some (<[k := v]> a).
Proof.
  intros Hk. unfold escribir. rewrite decide_True by lia. by rewrite Nat2Z.id.
Qed.

End Arreglos.

(** ** Loops *)

Section Bucles.
Context {A S : Type}.
Implicit Types (xs : list A) (f g : A → S → option S) (s : S).

Lemma para_cada_app xs ys f s :
  para_cada (xs ++ ys) f s = para_cada xs f s ≫= para_cada ys f.
Proof.
  revert s. induction xs as [|x xs IH]; intros s; simpl; [done|].
  destruct (f x s) as [s'|]; simpl; [apply IH|done].
Qed.

Lemma para_cada_ext xs f g s :
  (∀ x s', x ∈ xs → f x s' = g x s') → para_cada xs f s = para_cada xs g s.
Proof.
  revert s. induction xs as [|x xs IH]; intros s Hfg; simpl; [done|].
  rewrite Hfg by left. destruct (g x s) as [s'|]; simpl; [|done].
  apply IH. intros y s'' Hy. apply Hfg. by right.
Qed.

(** Bodies that commute pairwise can be run in any order. *)
Lemma para_cada_perm xs ys f :
  (∀ x y s, f x s ≫= f y = f y s ≫= f x) →
  xs ≡ₚ ys → ∀ s, para_cada xs f s = para_cada ys f s.
Proof.
  intros Hcomm Hperm.
  induction Hperm as [|x xs ys _ IH|x y xs|xs ys zs _ IH1 _ IH2]; intros s.
  - done.
  - simpl. destruct (f x s); simpl; [apply IH|done].
  - simpl. specialize (Hcomm x y s).
    destruct (f y s) as [s1|] eqn:Hy, (f x s) as [s2|] eqn:Hx; simpl in *.
    + destruct (f x s1) as [s3|], (f y s2) as [s4|]; simpl; congruence.
    + destruct (f x s1); simpl; congruence.
    + destruct (f y s2); simpl; congruence.
    + done.
  - by rewrite IH1.
Qed.

(** A property kept by every iteration holds after the loop. *)
Lemma para_cada_inv (P : S → Prop) xs f s s' :
  (∀ x s1 s2, x ∈ xs → P s1 → f x s1 = Some s2 → P s2) →
  P s → para_cada xs f s = Some s' → P s'.
Proof.
  revert s. induction xs as [|x xs IH]; intros s Hstep Hs; simpl.
  - by intros [= <-].
  - destruct (f x s) as [s1|] eqn:Hx; simpl; [|done].
    apply IH; [|by eapply Hstep; [left| |]].
    intros y s2 s3 Hy. apply Hstep. by right.
Qed.
End Bucles.

Section BuclesEnteros.
Context {S : Type}.
Implicit Types (f : Z → S → option S) (s : S).

Lemma bucle_vacio lo hi f s : hi ≤ lo → bucle lo hi f s = Some s.
Proof. intros. unfold bucle. by rewrite seqZ_nil by lia. Qed.

Lemma bucle_paso lo hi f s :
  lo < hi → bucle lo hi f s = f lo s ≫= bucle (lo + 1) hi f.
Proof.
  intros. unfold bucle. rewrite seqZ_cons by lia. simpl.
  by replace (Z.pred (hi - lo)) with (hi - (lo + 1)) by lia.
Qed.

(** Loop rule: an invariant indexed by the loop counter, established by
    every iteration, which also has to succeed. *)
Lemma bucle_regla (I : Z → S → Prop) lo hi f s :
  lo ≤ hi → I lo s →
  (∀ i s1, lo ≤ i < hi → I i s1 → ∃ s2, f i s1 = Some s2 ∧ I (i + 1) s2) →
  ∃ s', bucle lo hi f s = Some s' ∧ I hi s'.
Proof.
  intros Hle. remember (Z.to_nat (hi - lo)) as n eqn:Hn.
  revert lo s Hle Hn. induction n as [|n IH]; intros lo s Hle Hn Hs Hstep.
  - assert (lo = hi) as -> by lia. exists s. by rewrite bucle_vacio.
  - rewrite bucle_paso by lia.
    destruct (Hstep lo s) as (s1 & -> & Hs1); [lia|done|]. simpl.
    apply IH; [lia|lia|done|]. intros i s2 Hi. apply Hstep. lia.
Qed.
End BuclesEnteros.

(** ** Arrays filled from left to right *)

Section Relleno.
Context {A : Type}.
Implicit Types (a t : list A).

Lemma relleno_lookup t a (k : nat) :
  (k ≤ length t)%nat → (take k t ++ drop k a) !! k = a !! k.
Proof.
  intros Hk. rewrite lookup_app_r by (rewrite length_take; lia).
  rewrite length_take, lookup_drop. f_equal. lia.
Qed.

Lemma relleno_paso t a (k : nat) v :
  length t = length a → t !! k = Some v →
  <[k := v]> (take k t ++ drop k a) = take (S k) t ++ drop (S k) a.
Proof.
  intros Hlen Hk. pose proof (lookup_lt_Some _ _ _ Hk) as Hlt.
  destruct (lookup_lt_is_Some_2 a k) as [y Hy]; [lia|].
  rewrite insert_app_r_alt by (rewrite length_take; lia).
  rewrite length_take, (drop_S _ _ _ Hy), (take_S_r _ _ _ Hk).
  replace (k - k `min` length t)%nat with 0%nat by lia. simpl.
  by rewrite <- app_assoc.
Qed.

Lemma relleno_fin t a : length t = length a → take (length a) t ++ drop (length a) a = t.
Proof.
  intros Hlen. rewrite drop_all, app_nil_r, <- Hlen. apply firstn_all.
Qed.

Lemma relleno_length t a (k : nat) :
  length t = length a → length (take k t ++ drop k a) = length a.
Proof. intros Hlen. rewrite length_app, length_take, length_drop. lia. Qed.
End Relleno.

(** ** Vector sums *)

Lemma sumaVec_length a b : length (sumaVec a b) = (length a `min` length b)%nat.
Proof. apply length_zip_with. Qed.

Lemma sumaVec_comm a b : sumaVec a b = sumaVec b a.
Proof.
  unfold sumaVec. revert b. induction a as [|x a IH]; intros [|y b]; simpl; [done..|].
  f_equal; [lia|apply IH].
Qed.

Lemma sumaVec_assoc a b c : sumaVec (sumaVec a b) c = sumaVec a (sumaVec b c).
Proof.
  unfold sumaVec. revert b c.
  induction a as [|x a IH]; intros [|y b] [|z c]; simpl; [done..|].
  f_equal; [lia|apply IH].
Qed.

Lemma sumaVec_ceros_r n a : length a = n → sumaVec a (replicate n 0) = a.
Proof.
  intros <-. unfold sumaVec. induction a as [|x a IH]; simpl; [done|].
  f_equal; [lia|apply IH].
Qed.

Lemma sumaVec_ceros_l n a : length a = n → sumaVec (replicate n 0) a = a.
Proof. intros. rewrite sumaVec_comm. by apply sumaVec_ceros_r. Qed.

Lemma sumaVec_lookup a b (k : nat) x y :
  a !! k = Some x → b !! k = Some y → sumaVec a b !! k = Some (x + y).
Proof.
  intros Ha Hb. unfold sumaVec. apply lookup_zip_with_Some. eauto.
Qed.

Lemma sumaZ_sumaVec a b :
  length a = length b → sumaZ (sumaVec a b) = sumaZ a + sumaZ b.
Proof.
  unfold sumaZ, sumaVec. revert b.
  induction a as [|x a IH]; intros [|y b] Hlen; simpl in *; try done.
  rewrite IH by lia. lia.
Qed.

Lemma sumaVec_no_negativo a b :
  Forall (λ x, 0 ≤ x) a → Forall (λ x, 0 ≤ x) b → Forall (λ x, 0 ≤ x) (sumaVec a b).
Proof.
  unfold sumaVec. intros Ha. revert b.
  induction Ha as [|x a Hx Ha IH]; intros b Hb; simpl; [constructor|].
  destruct Hb as [|y b Hy Hb]; constructor; [lia|by apply IH].
Qed.

Lemma sumaFilas_length n inicio filas :
  length inicio = n → Forall (λ f, length f = n) filas →
  length (sumaFilas inicio filas) = n.
Proof.
  intros Hi Hf. revert inicio Hi.
  induction Hf as [|f filas Hf _ IH]; intros inicio Hi; simpl; [done|].
  apply IH. rewrite sumaVec_length. lia.
Qed.

(** Accumulating from [inicio] is adding [inicio] to the accumulation from
    the zero vector. *)
Lemma sumaFilas_desde n inicio filas :
  length inicio = n → Forall (λ f, length f = n) filas →
  sumaFilas inicio filas = sumaVec inicio (sumaFilas (replicate n 0) filas).
Proof.
  intros Hi Hf. revert inicio Hi.
  induction Hf as [|f filas Hf Hfs IH]; intros inicio Hi; simpl.
  - by rewrite sumaVec_ceros_r.
  - rewrite (IH (sumaVec inicio f)) by (rewrite sumaVec_length; lia).
    rewrite (IH (sumaVec (replicate n 0) f))
      by (rewrite sumaVec_length, length_replicate; lia).
    rewrite sumaVec_ceros_l by done. by rewrite sumaVec_assoc.
Qed.

Lemma sumaFilas_app inicio filas1 filas2 :
  sumaFilas inicio (filas1 ++ filas2) = sumaFilas (sumaFilas inicio filas1) filas2.
Proof. apply foldl_app. Qed.

(** The same facts for the arrays of the program, indexed by [int]. *)
Section RellenoEntero.
Context {A : Type}.
Implicit Types (a t : list A) (j : Z).

Lemma leer_relleno t a j :
  0 ≤ j ≤ Z.of_nat (length t) → leer (relleno j t a) j = a !! Z.to_nat j.
Proof.
  intros Hj. unfold leer, relleno. rewrite decide_True by lia.
  apply relleno_lookup. lia.
Qed.

Lemma escribir_relleno t a j v :
  0 ≤ j → length t = length a → t !! Z.to_nat j = Some v →
  escribir (relleno j t a) j v = Some (relleno (j + 1) t a).
Proof.
  intros Hj Hlen Hv. pose proof (lookup_lt_Some _ _ _ Hv) as Hlt.
  unfold escribir, relleno. rewrite relleno_length by done.
  rewrite decide_True by lia. f_equal.
  replace (Z.to_nat (j + 1)) with (Datatypes.S (Z.to_nat j)) by lia.
  by apply relleno_paso.
Qed.

Lemma relleno_completo t a j :
  length t = length a → Z.to_nat j = length a → relleno j t a = t.
Proof. intros Hlen Hj. unfold relleno. rewrite Hj. by apply relleno_fin. Qed.
End RellenoEntero.

(** ** The reduction *)

Section Reduccion.
Context (B : Z).
Local Abbreviation B' := (Z.to_nat B).
Implicit Types (a b fila parcial : list Z) (filas : list (list Z)).

Lemma ceros_length : length (ceros B) = B'.
Proof. apply length_replicate. Qed.

Lemma sumarFila_forma fila acc :
  length fila = B' → length acc = B' →
  sumarFila B fila acc = Some (sumaVec acc fila).
Proof.
  intros Hf Ha. unfold sumarFila.
  destruct (decide (B ≤ 0)) as [HB|HB].
  { rewrite bucle_vacio by done.
    destruct acc; [done|simpl in *; lia]. }
  set (t := sumaVec acc fila).
  assert (length t = length acc) as Ht
    by (unfold t; rewrite sumaVec_length; lia).
  edestruct (bucle_regla (λ j c, 0 ≤ j ∧ c = relleno j t acc) 0 B)
    as (c & -> & _ & ->); [lia|done| |].
  - intros j c Hj [_ ->].
    destruct (lookup_lt_is_Some_2 acc (Z.to_nat j)) as [x Hx]; [lia|].
    destruct (lookup_lt_is_Some_2 fila (Z.to_nat j)) as [y Hy]; [lia|].
    rewrite leer_relleno, Hx by lia. simpl.
    unfold leer at 1. rewrite decide_True, Hy by lia. simpl.
    eexists; split; [|split; [lia|done]].
    apply escribir_relleno; [lia|done|]. by apply sumaVec_lookup.
  - f_equal. apply relleno_completo; [done|lia].
Qed.

Lemma combinar_forma a b :
  length a = B' → length b = B' → combinar B a b = Some (sumaVec a b).
Proof.
  intros Ha Hb. unfold combinar.
  destruct (decide (B ≤ 0)) as [HB|HB].
  { rewrite bucle_vacio by done. unfold ceros.
    destruct a; [|simpl in *; lia]. by replace B' with 0%nat by lia. }
  set (t := sumaVec a b).
  assert (length t = length (ceros B)) as Ht
    by (unfold t; rewrite sumaVec_length, ceros_length; lia).
  edestruct (bucle_regla (λ j c, 0 ≤ j ∧ c = relleno j t (ceros B)) 0 B)
    as (c & -> & _ & ->); [lia|done| |].
  - intros j c Hj [_ ->].
    destruct (lookup_lt_is_Some_2 a (Z.to_nat j)) as [x Hx]; [lia|].
    destruct (lookup_lt_is_Some_2 b (Z.to_nat j)) as [y Hy]; [lia|].
    unfold leer. rewrite !decide_True, Hx, Hy by lia. simpl.
    eexists; split; [|split; [lia|done]].
    apply escribir_relleno; [lia|done|]. by apply sumaVec_lookup.
  - f_equal. apply relleno_completo; [done|]. rewrite ceros_length. lia.
Qed.

(** The sequential reduction adds every mapped vector to [histograma]. *)
Lemma reduccionSec_forma filas m :
  Forall (λ f, length f = B') filas → length (histograma m) = B' →
  para_cada filas (cuerpoReduccionSec B) m
  = Some (con_histograma (sumaFilas (histograma m) filas) m).
Proof.
  intros Hf. revert m.
  induction Hf as [|f filas Hf _ IH]; intros m Hm; cbn [para_cada].
  - by destruct m.
  - replace (cuerpoReduccionSec B f m)
      with (Some (con_histograma (sumaVec (histograma m) f) m))
      by (unfold cuerpoReduccionSec; by rewrite sumarFila_forma).
    cbn [mbind option_bind].
    rewrite IH by (simpl; rewrite sumaVec_length; lia). by destruct m.
Qed.

(** The inner loop of the partial reduction is the row sum of the
    sequential one. *)
Lemma cuerpoReduccion_fila m i fila parcial :
  leer (valoresMapeados m) i = Some fila →
  bucle 0 B
    (λ j parcial,
       x ← leer parcial j;
       fila ← leer (valoresMapeados m) i;
       y ← leer fila j;
       escribir parcial j (x + y))
    parcial
  = sumarFila B fila parcial.
Proof.
  intros Hfila. unfold sumarFila, bucle. apply para_cada_ext.
  intros j acc _. by rewrite Hfila.
Qed.

(** The partial reduction of [lo, hi) adds the mapped vectors of these
    positions to [parcial]. *)
Lemma cuerpoReduccion_forma m lo hi parcial :
  Forall (λ f, length f = B') (valoresMapeados m) →
  0 ≤ lo ≤ hi → hi ≤ Z.of_nat (length (valoresMapeados m)) →
  length parcial = B' →
  cuerpoReduccion B m lo hi parcial
  = Some (sumaFilas parcial (tramoDe lo hi (valoresMapeados m))).
Proof.
  intros Hf Hlo Hhi. unfold cuerpoReduccion, tramoDe.
  remember (Z.to_nat (hi - lo)) as n eqn:Hn.
  revert lo parcial Hlo Hn. induction n as [|n IH]; intros lo parcial Hlo Hn Hp.
  - rewrite bucle_vacio by lia. done.
  - rewrite bucle_paso by lia.
    destruct (lookup_lt_is_Some_2 (valoresMapeados m) (Z.to_nat lo))
      as [fila Hfila]; [lia|].
    assert (length fila = B') as Hlf
      by (eapply (Forall_lookup_1 _ _ _ _ Hf); done).
    rewrite (cuerpoReduccion_fila m lo fila)
      by (unfold leer; by rewrite decide_True by lia).
    rewrite sumarFila_forma by done. cbn [mbind option_bind].
    rewrite IH; [|lia|lia|rewrite sumaVec_length; lia].
    rewrite (drop_S _ _ _ Hfila). simpl.
    by replace (Z.to_nat (lo + 1)) with (Datatypes.S (Z.to_nat lo)) by lia.
Qed.
End Reduccion.

(** ** Slices, sums and running sums *)

Section Tramos.
Context {A : Type}.
Implicit Types (l : list A) (lo mid hi : Z).

Lemma tramoDe_vacio lo l : tramoDe lo lo l = [].
Proof. unfold tramoDe. by rewrite Z.sub_diag. Qed.

Lemma tramoDe_length lo hi l :
  0 ≤ lo ≤ hi → hi ≤ Z.of_nat (length l) →
  length (tramoDe lo hi l) = Z.to_nat (hi - lo).
Proof.
  intros. unfold tramoDe. rewrite length_take, length_drop. lia.
Qed.

Lemma tramoDe_app lo mid hi l :
  0 ≤ lo ≤ mid → mid ≤ hi →
  tramoDe lo mid l ++ tramoDe mid hi l = tramoDe lo hi l.
Proof.
  intros. unfold tramoDe.
  replace (Z.to_nat mid) with (Z.to_nat lo + Z.to_nat (mid - lo))%nat by lia.
  rewrite <- drop_drop, take_take_drop. f_equal. lia.
Qed.

Lemma tramoDe_uno lo l x :
  0 ≤ lo → l !! Z.to_nat lo = Some x → tramoDe lo (lo + 1) l = [x].
Proof.
  intros Hlo Hx. unfold tramoDe. rewrite (drop_S _ _ _ Hx).
  by replace (Z.to_nat (lo + 1 - lo)) with 1%nat by lia.
Qed.

Lemma tramoDe_todo l : tramoDe 0 (Z.of_nat (length l)) l = l.
Proof.
  unfold tramoDe. rewrite Z.sub_0_r, Nat2Z.id. apply firstn_all.
Qed.
End Tramos.

Lemma sumaZ_app l1 l2 : sumaZ (l1 ++ l2) = sumaZ l1 + sumaZ l2.
Proof. unfold sumaZ. induction l1 as [|x l1 IH]; simpl; lia. Qed.

Lemma prefijos_length s l : length (prefijos s l) = length l.
Proof. revert s. induction l as [|x l IH]; intros s; simpl; [done|]. by rewrite IH. Qed.

Lemma prefijos_app s l1 l2 :
  prefijos s (l1 ++ l2) = prefijos s l1 ++ prefijos (s + sumaZ l1) l2.
Proof.
  revert s. induction l1 as [|x l1 IH]; intros s; simpl.
  - by rewrite Z.add_0_r.
  - rewrite IH. do 3 f_equal. unfold sumaZ. simpl. lia.
Qed.

(** ** The reduction tree of [parallel_reduce] *)

Lemma alcance_orden p r : alcance p = Some r → r.1 ≤ r.2.
Proof.
  revert r. induction p as [lo hi|p IH lo hi|p1 IH1 p2 IH2]; intros r; simpl.
  - case_decide; [|done]. intros [= <-]. done.
  - destruct (alcance p) as [r1|]; simpl; [|done].
    case_decide as Hr; [|done]. intros [= <-]. simpl.
    specialize (IH _ eq_refl). lia.
  - destruct (alcance p1) as [r1|]; simpl; [|done].
    destruct (alcance p2) as [r2|]; simpl; [|done].
    case_decide as Hr; [|done]. intros [= <-]. simpl.
    specialize (IH1 _ eq_refl). specialize (IH2 _ eq_refl). lia.
Qed.

Section ReduccionParalela.
Context (B : Z).
Local Abbreviation B' := (Z.to_nat B).

(** Whatever the task tree, the parallel reduction adds up the mapped
    vectors of the interval the tree covers. *)
Lemma parallel_reduce_forma m p r :
  Forall (λ f, length f = B') (valoresMapeados m) →
  alcance p = Some r → 0 ≤ r.1 → r.2 ≤ Z.of_nat (length (valoresMapeados m)) →
  parallel_reduce p (ceros B) (cuerpoReduccion B m) (combinar B)
  = Some (sumaFilas (ceros B) (tramoDe r.1 r.2 (valoresMapeados m))).
Proof.
  intros Hf. assert (∀ lo hi, Forall (λ f, length f = B')
                       (tramoDe lo hi (valoresMapeados m))) as Hft.
  { intros lo hi. unfold tramoDe. by apply Forall_take, Forall_drop. }
  revert r. induction p as [lo hi|p IH lo hi|p1 IH1 p2 IH2]; intros r; simpl.
  - case_decide; [|done]. intros [= <-] ??. simpl in *.
    apply cuerpoReduccion_forma; [done|lia|lia|apply ceros_length].
  - destruct (alcance p) as [r1|] eqn:Hp; simpl; [|done].
    case_decide as Hr; [|done]. intros [= <-] ??. simpl in *.
    pose proof (alcance_orden _ _ Hp).
    rewrite (IH r1) by (done || lia). simpl.
    rewrite cuerpoReduccion_forma;
      [|done|lia|lia|by apply sumaFilas_length; [apply ceros_length|]].
    rewrite <- sumaFilas_app. destruct Hr as [<- ?].
    by rewrite tramoDe_app by lia.
  - destruct (alcance p1) as [r1|] eqn:Hp1; simpl; [|done].
    destruct (alcance p2) as [r2|] eqn:Hp2; simpl; [|done].
    case_decide as Hr; [|done]. intros [= <-] ??. simpl in *.
    pose proof (alcance_orden _ _ Hp1). pose proof (alcance_orden _ _ Hp2).
    rewrite (IH1 r1), (IH2 r2) by (done || lia). simpl.
    rewrite combinar_forma
      by (by apply sumaFilas_length; [apply ceros_length|]).
    rewrite <- (tramoDe_app r1.1 r1.2 r2.2) by lia.
    rewrite sumaFilas_app, Hr.
    f_equal. symmetry. apply (sumaFilas_desde B'); [|done].
    by apply sumaFilas_length; [apply ceros_length|].
Qed.
End ReduccionParalela.

(** ** The scan *)

Lemma particion_orden lo hi rs : particion lo hi rs = true → lo ≤ hi.
Proof.
  revert lo. induction rs as [|r rs IH]; intros lo; simpl.
  - intros Hd. apply bool_decide_eq_true in Hd. lia.
  - intros [Hr Hrs]%andb_true_iff. apply bool_decide_eq_true in Hr.
    apply IH in Hrs. lia.
Qed.

Section Escaneo.
Implicit Types (m : Memoria) (lo hi s : Z).

Lemma con_histogramaAcumulado_id m : con_histogramaAcumulado (histogramaAcumulado m) m = m.
Proof. by destruct m. Qed.

Lemma con_histogramaAcumulado_dos ha1 ha2 m :
  con_histogramaAcumulado ha2 (con_histogramaAcumulado ha1 m)
  = con_histogramaAcumulado ha2 m.
Proof. done. Qed.

(** The body of the sequential scan is the final scan body. *)
Lemma cuerpoEscaneoSec_final i st : cuerpoEscaneoSec i st = cuerpoEscaneo true i st.
Proof. by destruct st. Qed.

(** A non-final pass returns the seed plus the sum of its sub-range and
    leaves the store as it was. *)
Lemma escanearRango_no_final lo hi s m :
  0 ≤ lo ≤ hi → hi ≤ Z.of_nat (length (histograma m)) →
  escanearRango lo hi s false m
  = Some (s + sumaZ (tramoDe lo hi (histograma m)), m).
Proof.
  intros Hlo Hhi. unfold escanearRango.
  edestruct (bucle_regla
    (λ i st, st = (s + sumaZ (tramoDe lo i (histograma m)), m)) lo hi)
    as (st & -> & ->); [lia| | |done].
  - by rewrite tramoDe_vacio, Z.add_0_r.
  - intros i st Hi ->. simpl.
    destruct (lookup_lt_is_Some_2 (histograma m) (Z.to_nat i)) as [x Hx]; [lia|].
    unfold leer. rewrite decide_True, Hx by lia. simpl.
    eexists; split; [done|].
    rewrite <- (tramoDe_app lo i (i + 1)) by lia.
    rewrite (tramoDe_uno i _ x) by (done || lia).
    rewrite sumaZ_app. unfold sumaZ at 3. simpl. f_equal. lia.
Qed.

(** A final pass returns the same value and overwrites exactly the
    positions of its sub-range with the running sums from the seed. *)
Lemma escanearRango_final lo hi s m :
  0 ≤ lo ≤ hi → hi ≤ Z.of_nat (length (histograma m)) →
  length (histogramaAcumulado m) = length (histograma m) →
  escanearRango lo hi s true m
  = Some (s + sumaZ (tramoDe lo hi (histograma m)),
          con_histogramaAcumulado
            (take (Z.to_nat lo) (histogramaAcumulado m)
             ++ prefijos s (tramoDe lo hi (histograma m))
             ++ drop (Z.to_nat hi) (histogramaAcumulado m)) m).
Proof.
  intros Hlo Hhi Hlen. unfold escanearRango.
  set (h := histograma m) in *. set (ha := histogramaAcumulado m) in *.
  edestruct (bucle_regla
    (λ i st, st = (s + sumaZ (tramoDe lo i h),
                   con_histogramaAcumulado
                     (take (Z.to_nat lo) ha ++ prefijos s (tramoDe lo i h)
                      ++ drop (Z.to_nat i) ha) m)) lo hi)
    as (st & -> & ->); [lia| | |done].
  - rewrite tramoDe_vacio, Z.add_0_r. simpl. rewrite take_drop.
    unfold ha. by rewrite con_histogramaAcumulado_id.
  - intros i st Hi ->. cbn [cuerpoEscaneo histograma con_histogramaAcumulado].
    fold h.
    destruct (lookup_lt_is_Some_2 h (Z.to_nat i)) as [x Hx]; [lia|].
    destruct (lookup_lt_is_Some_2 ha (Z.to_nat i)) as [y Hy]; [lia|].
    unfold leer. rewrite decide_True, Hx by lia.
    cbn [mbind option_bind histogramaAcumulado con_histogramaAcumulado].
    assert (length (take (Z.to_nat lo) ha ++ prefijos s (tramoDe lo i h))
            = Z.to_nat i) as Hpre.
    { rewrite length_app, length_take, prefijos_length, tramoDe_length by lia.
      lia. }
    unfold escribir. rewrite decide_True.
    2:{ rewrite app_assoc, length_app, Hpre, length_drop. lia. }
    cbn [mbind option_bind]. eexists; split; [done|].
    rewrite con_histogramaAcumulado_dos.
    rewrite <- (tramoDe_app lo i (i + 1)), (tramoDe_uno i _ x) by (done || lia).
    rewrite sumaZ_app, prefijos_app. unfold sumaZ at 3. simpl.
    rewrite Z.add_0_r, Z.add_assoc. do 2 f_equal.
    rewrite (app_assoc _ _ (drop _ _)), insert_app_r_alt by lia.
    rewrite Hpre, Nat.sub_diag, (drop_S _ _ _ Hy). simpl.
    rewrite <- !app_assoc. simpl.
    by replace (Z.to_nat (i + 1)) with (Datatypes.S (Z.to_nat i)) by lia.
Qed.

(** The sequential scan writes the inclusive running sums of [histograma]. *)
Lemma escaneoSec_forma B m :
  length (histograma m) = Z.to_nat B →
  length (histogramaAcumulado m) = Z.to_nat B →
  bucle 0 B cuerpoEscaneoSec (0, m)
  = Some (sumaZ (histograma m),
          con_histogramaAcumulado (prefijos 0 (histograma m)) m).
Proof.
  intros Hh Hha.
  destruct (decide (B ≤ 0)) as [HB|HB].
  { rewrite bucle_vacio by done.
    destruct m as [d vm [|] [|]]; simpl in *; (done || lia). }
  trans (escanearRango 0 B 0 true m).
  { unfold escanearRango, bucle. apply para_cada_ext.
    intros. apply cuerpoEscaneoSec_final. }
  rewrite escanearRango_final by lia.
  replace B with (Z.of_nat (length (histograma m))) by lia.
  rewrite tramoDe_todo, Nat2Z.id, Hh, <- Hha, drop_all, app_nil_r. done.
Qed.
End Escaneo.

(** ** The two passes of [parallel_scan] *)

Section EscaneoParalelo.
Implicit Types (m : Memoria) (plan : list Tramo).

(** The first pass computes the sums of the selected sub-ranges and
    leaves the store as it was. *)
Lemma pre_scan_forma plan c hi m :
  particion c hi (rango_de <$> plan) = true →
  0 ≤ c → hi ≤ Z.of_nat (length (histograma m)) →
  pre_scan plan 0 escanearRango m = Some (anotar (histograma m) plan, m).
Proof.
  revert c. induction plan as [|t plan IH]; intros c Hp Hc Hhi; [done|].
  cbn [fmap list_fmap particion rango_de fst snd] in Hp.
  apply andb_true_iff in Hp as [Ht Hp]. apply bool_decide_eq_true in Ht.
  pose proof (particion_orden _ _ _ Hp) as Hle.
  cbn [pre_scan]. destruct (t_pre t) eqn:Hpre.
  - rewrite escanearRango_no_final by lia. cbn [mbind option_bind].
    rewrite (IH (t_hi t)) by (done || lia). cbn [mbind option_bind].
    unfold anotar. cbn [fmap list_fmap]. by rewrite Hpre.
  - rewrite (IH (t_hi t)) by (done || lia). cbn [mbind option_bind].
    unfold anotar. cbn [fmap list_fmap]. by rewrite Hpre.
Qed.

(** The second pass, started at position [c] with the sum of everything on
    the left of [c], writes the running sums of the positions from [c] on. *)
Lemma final_scan_forma B plan c s m :
  particion c B (rango_de <$> plan) = true → 0 ≤ c →
  length (histograma m) = Z.to_nat B →
  length (histogramaAcumulado m) = Z.to_nat B →
  final_scan (anotar (histograma m) plan) s escanearRango Z.add m
  = Some (s + sumaZ (tramoDe c B (histograma m)),
          con_histogramaAcumulado
            (take (Z.to_nat c) (histogramaAcumulado m)
             ++ prefijos s (tramoDe c B (histograma m))) m).
Proof.
  revert c s m. induction plan as [|t plan IH]; intros c s m Hp Hc Hh Hha.
  - simpl in Hp. apply bool_decide_eq_true in Hp as ->.
    cbn [anotar fmap list_fmap final_scan].
    rewrite tramoDe_vacio, Z.add_0_r. simpl.
    rewrite app_nil_r, <- Hha, firstn_all.
    by rewrite con_histogramaAcumulado_id.
  - cbn [fmap list_fmap particion rango_de fst snd] in Hp.
    apply andb_true_iff in Hp as [Ht Hp]. apply bool_decide_eq_true in Ht.
    destruct Ht as [Hlo Hle].
    pose proof (particion_orden _ _ _ Hp) as Hhi.
    unfold anotar. cbn [fmap list_fmap final_scan]. fold (anotar (histograma m) plan).
    rewrite Hlo. rewrite escanearRango_final by lia. cbn [mbind option_bind].
    set (m1 := con_histogramaAcumulado _ m).
    set (s1 := s + sumaZ (tramoDe c (t_hi t) (histograma m))).
    replace (match (if t_pre t then Some (sumaZ (tramoDe c (t_hi t) (histograma m)))
                    else None) with Some x => s + x | None => s1 end)
      with s1 by (by destruct (t_pre t)).
    change (histograma m) with (histograma m1) at 1.
    rewrite (IH (t_hi t) s1 m1); [|done|lia|done|].
    2:{ unfold m1. cbn [histogramaAcumulado con_histogramaAcumulado].
        rewrite !length_app, length_take, prefijos_length, length_drop.
        rewrite tramoDe_length by lia. lia. }
    unfold m1, s1. cbn [histograma histogramaAcumulado con_histogramaAcumulado].
    rewrite <- (tramoDe_app c (t_hi t) B) by lia.
    rewrite sumaZ_app, prefijos_app, Z.add_assoc. do 2 f_equal.
    rewrite (app_assoc (take _ _)), take_app_length'.
    2:{ rewrite length_app, length_take, prefijos_length.
        rewrite tramoDe_length by lia. lia. }
    by rewrite <- app_assoc.
Qed.

(** Whatever the decomposition, [parallel_scan] writes the inclusive
    running sums of [histograma]. *)
Lemma parallel_scan_forma B plan m :
  particion 0 B (rango_de <$> plan) = true →
  length (histograma m) = Z.to_nat B →
  length (histogramaAcumulado m) = Z.to_nat B →
  parallel_scan plan 0 escanearRango Z.add m
  = Some (sumaZ (histograma m),
          con_histogramaAcumulado (prefijos 0 (histograma m)) m).
Proof.
  intros Hp Hh Hha. pose proof (particion_orden _ _ _ Hp) as HB.
  unfold parallel_scan.
  rewrite (pre_scan_forma plan 0 B) by (done || lia). cbn [mbind option_bind].
  rewrite (final_scan_forma B plan 0) by done.
  replace B with (Z.of_nat (length (histograma m))) at 1 2 by lia.
  by rewrite tramoDe_todo.
Qed.
End EscaneoParalelo.

(** ** The mapping *)

Lemma sumaZ_replicate_0 n : sumaZ (replicate n 0) = 0.
Proof. unfold sumaZ. induction n as [|n IH]; simpl; lia. Qed.

Lemma sumaZ_insert l (k : nat) y v :
  l !! k = Some y → sumaZ (<[k := v]> l) = sumaZ l - y + v.
Proof.
  unfold sumaZ. revert k. induction l as [|x l IH]; intros [|k] Hk; simpl in *;
    try done.
  - injection Hk as ->. lia.
  - rewrite (IH k) by done. lia.
Qed.

Section Mapeo.
Context (B W : Z).
Local Abbreviation B' := (Z.to_nat B).
Implicit Types (m : Memoria) (xs : list Z).

Lemma cuerpoMapeo_filaDe i m :
  cuerpoMapeo B W i m
  = valor ← leer (datos m) i;
    fila ← filaDe B W valor;
    vm ← escribir (valoresMapeados m) i fila;
    Some (con_valoresMapeados vm m).
Proof.
  unfold cuerpoMapeo, filaDe. destruct (leer (datos m) i) as [x|]; simpl; [|done].
  by destruct (calcularIndiceRango B x W).
Qed.

(** What is written in one position of [valoresMapeados] does not depend on
    the other positions: two iterations of the mapping loop commute. *)
Lemma cuerpoMapeo_conmuta i j m :
  cuerpoMapeo B W i m ≫= cuerpoMapeo B W j
  = cuerpoMapeo B W j m ≫= cuerpoMapeo B W i.
Proof.
  destruct (decide (i = j)) as [->|Hij]; [done|].
  rewrite (cuerpoMapeo_filaDe i m), (cuerpoMapeo_filaDe j m).
  destruct (leer (datos m) i ≫= filaDe B W) as [fi|] eqn:Hi,
           (leer (datos m) j ≫= filaDe B W) as [fj|] eqn:Hj.
  - apply bind_Some in Hi as (xi & Hxi & Hfi).
    apply bind_Some in Hj as (xj & Hxj & Hfj).
    rewrite Hxi, Hxj. cbn [mbind option_bind]. rewrite Hfi, Hfj.
    cbn [mbind option_bind]. unfold escribir.
    repeat case_decide; cbn [mbind option_bind]; try done.
    + rewrite !cuerpoMapeo_filaDe. cbn [datos valoresMapeados con_valoresMapeados].
      rewrite Hxi, Hxj. cbn [mbind option_bind]. rewrite Hfi, Hfj.
      cbn [mbind option_bind]. unfold escribir. rewrite !length_insert.
      rewrite !decide_True by done. cbn [mbind option_bind].
      unfold con_valoresMapeados. cbn [datos histograma histogramaAcumulado].
      do 2 f_equal. apply list_insert_insert_ne. lia.
    + rewrite cuerpoMapeo_filaDe. cbn [datos valoresMapeados con_valoresMapeados].
      rewrite Hxj. cbn [mbind option_bind]. rewrite Hfj.
      cbn [mbind option_bind]. unfold escribir. rewrite length_insert.
      by rewrite decide_False by done.
    + rewrite cuerpoMapeo_filaDe. cbn [datos valoresMapeados con_valoresMapeados].
      rewrite Hxi. cbn [mbind option_bind]. rewrite Hfi.
      cbn [mbind option_bind]. unfold escribir. rewrite length_insert.
      by rewrite decide_False by done.
  - assert (∀ m', datos m' = datos m → cuerpoMapeo B W j m' = None) as Hnone.
    { intros m' Hm'. rewrite cuerpoMapeo_filaDe, Hm'.
      destruct (leer (datos m) j) as [xj|]; [|done]. simpl in *. by rewrite Hj. }
    rewrite <- (cuerpoMapeo_filaDe j m), (Hnone m) by done.
    rewrite <- (cuerpoMapeo_filaDe i m).
    destruct (cuerpoMapeo B W i m) as [m'|] eqn:Hm'; [|done]. simpl.
    apply Hnone. rewrite cuerpoMapeo_filaDe in Hm'.
    repeat (apply bind_Some in Hm' as (? & ? & Hm')). by injection Hm' as <-.
  - assert (∀ m', datos m' = datos m → cuerpoMapeo B W i m' = None) as Hnone.
    { intros m' Hm'. rewrite cuerpoMapeo_filaDe, Hm'.
      destruct (leer (datos m) i) as [xi|]; [|done]. simpl in *. by rewrite Hi. }
    rewrite <- (cuerpoMapeo_filaDe i m), (Hnone m) by done.
    rewrite <- (cuerpoMapeo_filaDe j m).
    destruct (cuerpoMapeo B W j m) as [m'|] eqn:Hm'; [|done]. simpl.
    symmetry. apply Hnone. rewrite cuerpoMapeo_filaDe in Hm'.
    repeat (apply bind_Some in Hm' as (? & ? & Hm')). by injection Hm' as <-.
  - assert (∀ k, leer (datos m) k ≫= filaDe B W = None →
                 cuerpoMapeo B W k m = None) as Hnone.
    { intros k Hk. rewrite cuerpoMapeo_filaDe.
      destruct (leer (datos m) k) as [xk|]; [|done]. simpl in *. by rewrite Hk. }
    rewrite <- (cuerpoMapeo_filaDe i m), <- (cuerpoMapeo_filaDe j m).
    by rewrite !Hnone.
Qed.
End Mapeo.

Section MapeoCompleto.
Context (B W : Z).
Local Abbreviation B' := (Z.to_nat B).
Implicit Types (m : Memoria) (xs pre suf : list Z) (filas : list (list Z)).

(** The mapping loop from position [length pre] on: the rows already
    written are kept and one row per remaining value is appended. *)
Lemma mapeo_desde pre suf hechas h ha :
  length hechas = length pre →
  para_cada (seqZ (Z.of_nat (length pre)) (Z.of_nat (length suf)))
    (cuerpoMapeo B W)
    {| datos := pre ++ suf;
       valoresMapeados := hechas ++ replicate (length suf) (ceros B);
       histograma := h; histogramaAcumulado := ha |}
  = filas ← mapM (filaDe B W) suf;
    Some {| datos := pre ++ suf; valoresMapeados := hechas ++ filas;
            histograma := h; histogramaAcumulado := ha |}.
Proof.
  revert pre hechas. induction suf as [|x suf IH]; intros pre hechas Hlen.
  - by rewrite seqZ_nil by done.
  - rewrite seqZ_cons by (simpl; lia). cbn [para_cada].
    rewrite cuerpoMapeo_filaDe. cbn [datos valoresMapeados].
    rewrite leer_nat, list_lookup_middle by done. cbn [mbind option_bind].
    cbn [mapM]. destruct (filaDe B W x) as [fila|]; [|done].
    cbn [mbind option_bind]. rewrite escribir_nat.
    2:{ rewrite length_app. simpl. lia. }
    cbn [mbind option_bind]. unfold con_valoresMapeados.
    cbn [datos histograma histogramaAcumulado].
    rewrite insert_app_r_alt, Hlen, Nat.sub_diag by lia.
    change (<[0%nat:=fila]> (replicate (length (x :: suf)) (ceros B)))
      with (fila :: replicate (length suf) (ceros B)).
    replace (Z.succ (Z.of_nat (length pre)))
      with (Z.of_nat (length (pre ++ [x]))) by (rewrite length_app; simpl; lia).
    replace (Z.pred (Z.of_nat (length (x :: suf))))
      with (Z.of_nat (length suf)) by (simpl; lia).
    rewrite (cons_middle x pre suf), (cons_middle fila hechas), !app_assoc.
    rewrite IH by (rewrite !length_app; simpl; lia).
    destruct (mapM (filaDe B W) suf) as [filas|]; [|done]. simpl.
    by rewrite (cons_middle fila hechas filas), !app_assoc.
Qed.

(** The sequential mapping stage. *)
Lemma mapeoSec_forma xs :
  bucle 0 (Z.of_nat (length xs)) (cuerpoMapeo B W) (memoriaInicial B xs)
  = filas ← mapM (filaDe B W) xs;
    Some (con_valoresMapeados filas (memoriaInicial B xs)).
Proof.
  unfold bucle. rewrite Z.sub_0_r.
  apply (mapeo_desde [] xs [] (ceros B) (ceros B) eq_refl).
Qed.

(** The parallel mapping stage runs the loop body once per index, in the
    order of the decomposition; any such order gives the sequential result. *)
Lemma parallel_for_indices (plan : list Rango) m :
  parallel_for plan (λ lo hi, bucle lo hi (cuerpoMapeo B W)) m
  = para_cada (plan ≫= indices) (cuerpoMapeo B W) m.
Proof.
  unfold parallel_for. revert m.
  induction plan as [|r plan IH]; intros m; [reflexivity|].
  change ((r :: plan) ≫= indices) with (indices r ++ (plan ≫= indices)).
  cbn [para_cada]. rewrite para_cada_app.
  change (bucle r.1 r.2 (cuerpoMapeo B W) m)
    with (para_cada (indices r) (cuerpoMapeo B W) m).
  destruct (para_cada (indices r) _ m) as [m'|]; [apply IH|done].
Qed.

(** The iterations of the mapping loop may take effect in any order. *)
Lemma mapeo_cualquier_orden (ks : list Z) n m :
  ks ≡ₚ seqZ 0 n →
  para_cada ks (cuerpoMapeo B W) m = bucle 0 n (cuerpoMapeo B W) m.
Proof.
  intros Hperm. unfold bucle. rewrite Z.sub_0_r.
  apply para_cada_perm; [|done]. intros i j s. apply cuerpoMapeo_conmuta.
Qed.

Lemma mapeoPar_forma (plan : list Rango) n m :
  (plan ≫= indices) ≡ₚ seqZ 0 n →
  parallel_for plan (λ lo hi, bucle lo hi (cuerpoMapeo B W)) m
  = bucle 0 n (cuerpoMapeo B W) m.
Proof.
  intros Hperm. rewrite parallel_for_indices.
  by apply mapeo_cualquier_orden.
Qed.

(** The rows of the mapping are one-hot vectors. *)
Lemma filaDe_Some x fila :
  filaDe B W x = Some fila →
  ∃ indice, calcularIndiceRango B x W = Some indice ∧ 0 ≤ indice < B
            ∧ fila = <[Z.to_nat indice := 1]> (ceros B).
Proof.
  unfold filaDe. intros (indice & Hi & Hf)%bind_Some.
  apply escribir_Some in Hf as [Hr ->]. rewrite ceros_length in Hr.
  exists indice. repeat split; (done || lia).
Qed.

Lemma filaDe_length x fila : filaDe B W x = Some fila → length fila = B'.
Proof.
  intros (indice & _ & _ & ->)%filaDe_Some.
  by rewrite length_insert, ceros_length.
Qed.

Lemma filaDe_suma x fila : filaDe B W x = Some fila → sumaZ fila = 1.
Proof.
  intros (indice & _ & Hi & ->)%filaDe_Some.
  rewrite (sumaZ_insert _ _ 0); [unfold ceros; by rewrite sumaZ_replicate_0|].
  apply lookup_replicate_2. lia.
Qed.

Lemma filaDe_no_negativo x fila :
  filaDe B W x = Some fila → Forall (λ v, 0 ≤ v) fila.
Proof.
  intros (indice & _ & Hi & ->)%filaDe_Some.
  apply Forall_insert; [|lia]. unfold ceros. apply Forall_replicate. lia.
Qed.

Lemma filas_Forall (P : list Z → Prop) xs filas :
  (∀ x fila, filaDe B W x = Some fila → P fila) →
  mapM (filaDe B W) xs = Some filas → Forall P filas.
Proof.
  intros HP Hf%mapM_Some_1.
  induction Hf as [|x f xs filas Hx _ IH]; [constructor|].
  constructor; [by eapply HP|done].
Qed.

Lemma filas_length xs filas :
  mapM (filaDe B W) xs = Some filas → Forall (λ f, length f = B') filas.
Proof. apply filas_Forall. apply filaDe_length. Qed.
End MapeoCompleto.

(** ** Both backends in closed form *)

Section Ejecucion.
Context (B W : Z).
Local Abbreviation B' := (Z.to_nat B).
Implicit Types (xs : list Z) (plan : Planificacion).

Lemma ejecutarSecuencial_forma xs :
  ejecutarSecuencial B xs W = resultado B W xs.
Proof.
  unfold ejecutarSecuencial, resultado. rewrite mapeoSec_forma.
  destruct (mapM (filaDe B W) xs) as [filas|] eqn:Hfilas; [|done].
  cbn [mbind option_bind valoresMapeados con_valoresMapeados].
  pose proof (filas_length _ _ _ _ Hfilas) as Hlen.
  rewrite reduccionSec_forma by (done || apply ceros_length).
  cbn [mbind option_bind].
  rewrite escaneoSec_forma; cbn [histograma histogramaAcumulado con_histograma
    con_valoresMapeados memoriaInicial].
  - done.
  - by apply sumaFilas_length; [apply ceros_length|].
  - apply ceros_length.
Qed.

Lemma ejecutarParalelo_forma plan xs :
  planificacion_valida B (Z.of_nat (length xs)) plan →
  ejecutarParalelo B plan xs W = resultado B W xs.
Proof.
  intros (Hmapeo & Hred & Hesc). unfold ejecutarParalelo, resultado.
  rewrite (mapeoPar_forma _ _ _ (Z.of_nat (length xs))) by done.
  rewrite mapeoSec_forma.
  destruct (mapM (filaDe B W) xs) as [filas|] eqn:Hfilas; [|done].
  cbn [mbind option_bind].
  pose proof (filas_length _ _ _ _ Hfilas) as Hlen.
  pose proof (length_mapM _ _ _ Hfilas) as Hn.
  rewrite (parallel_reduce_forma B _ _ (0, Z.of_nat (length xs)));
    cbn [valoresMapeados con_valoresMapeados fst snd]; [|done|done|lia|lia].
  cbn [mbind option_bind].
  rewrite (parallel_scan_forma B); cbn [histograma histogramaAcumulado
    con_histograma con_valoresMapeados memoriaInicial valoresMapeados].
  - rewrite Hn, tramoDe_todo. done.
  - done.
  - rewrite Hn, tramoDe_todo. by apply sumaFilas_length; [apply ceros_length|].
  - apply ceros_length.
Qed.
End Ejecucion.

(** ** The classifier *)

Lemma dividir_positivo a b : 1 ≤ b → dividir a b = Some (a `quot` b).
Proof.
  intros Hb. unfold dividir.
  rewrite decide_False by lia. by rewrite decide_False by lia.
Qed.

Lemma calcularIndiceRango_positivo B x W :
  1 ≤ W →
  calcularIndiceRango B x W
  = Some (((if decide (x > 0) then x - 1 else x) `quot` W) `min` (B - 1)).
Proof. intros HW. unfold calcularIndiceRango. by rewrite dividir_positivo. Qed.

(** A value that is not negative gets a bucket of the array. *)
Lemma calcularIndiceRango_en_rango B x W :
  1 ≤ B → 1 ≤ W → 0 ≤ x →
  ∃ b, calcularIndiceRango B x W = Some b ∧ 0 ≤ b < B.
Proof.
  intros HB HW Hx. rewrite calcularIndiceRango_positivo by done.
  eexists; split; [done|].
  assert (0 ≤ (if decide (x > 0) then x - 1 else x) `quot` W)
    by (apply Z.quot_pos; [case_decide|]; lia).
  lia.
Qed.

(** C2: for a value [x] of [0, V] and a width [W >= 1], the classifier
    returns what the three-step rule of the specification gives: with
    [x' = x - 1] if [x > 0] and [x' = 0] otherwise, the minimum of the floor
    of [x' / W] and [B - 1]. *)
Theorem calcularIndiceRango_regla (B V W x : Z) :
  0 ≤ x ≤ V → 1 ≤ W →
  calcularIndiceRango B x W = Some (clasificar_spec B W x).
Proof.
  intros Hx HW. rewrite calcularIndiceRango_positivo by done.
  unfold clasificar_spec. case_decide.
  - by rewrite Z.quot_div_nonneg by lia.
  - by replace x with 0 by lia.
Qed.

Lemma calcularIndiceRango_regla_testigo :
  calcularIndiceRango CANTIDAD_RANGOS 31 TAMANO_RANGO
  = Some (clasificar_spec CANTIDAD_RANGOS TAMANO_RANGO 31).
Proof.
  apply (calcularIndiceRango_regla CANTIDAD_RANGOS VALOR_MAXIMO TAMANO_RANGO 31);
    vm_compute; intuition discriminate.
Defined.

(** C4, as the code has it: for every integer [x] and every width [W >= 1]
    the classifier returns an index below [B]; that index is not negative
    exactly when [x > -W].  So every value [x >= 0], also one above [V], gets
    a valid bucket, and a value [x <= -W] gets a negative index: the minimum
    with [B - 1] bounds the index from above only. *)
Theorem calcularIndiceRango_valido (B W x : Z) :
  1 ≤ B → 1 ≤ W →
  ∃ b, calcularIndiceRango B x W = Some b ∧ b < B ∧ (0 ≤ b ↔ - W < x).
Proof.
  intros HB HW. rewrite calcularIndiceRango_positivo by done.
  eexists; split; [done|]. split; [lia|].
  case_decide as Hx.
  - assert (0 ≤ (x - 1) `quot` W) by (apply Z.quot_pos; lia). lia.
  - destruct (decide (- W < x)) as [Hlt|Hge].
    + assert (x `quot` W = 0) by (apply Z.quot_small_iff; lia). lia.
    + assert (x `quot` W ≤ -1); [|lia].
      replace x with (- (- x)) by lia. rewrite Z.quot_opp_l by lia.
      assert (1 ≤ (- x) `quot` W); [|lia].
      rewrite Z.quot_div_nonneg by lia.
      apply Z.div_le_lower_bound; lia.
Qed.

Lemma calcularIndiceRango_valido_testigo :
  ∃ b, calcularIndiceRango CANTIDAD_RANGOS 500 TAMANO_RANGO = Some b
       ∧ b < CANTIDAD_RANGOS ∧ (0 ≤ b ↔ - TAMANO_RANGO < 500).
Proof.
  apply (calcularIndiceRango_valido CANTIDAD_RANGOS TAMANO_RANGO 500);
    vm_compute; discriminate.
Defined.

(** C4, as stated, fails: the value [-30] with the width [30] of the source
    is classified into the index [-1]. *)
Lemma calcularIndiceRango_negativo :
  ∃ b, calcularIndiceRango CANTIDAD_RANGOS (-30) TAMANO_RANGO = Some b
       ∧ ¬ (0 ≤ b < CANTIDAD_RANGOS).
Proof. exists (-1). split; [reflexivity|]. vm_compute. intuition. Qed.

(** When [B] divides [V], the width computed in [main] is the exact
    quotient. *)
Lemma tamanoDeRango_exacto B V :
  1 ≤ B → (B | V) → V = B * tamanoDeRango B V.
Proof.
  intros HB [k ->]. unfold tamanoDeRango.
  rewrite <- Z.mul_opp_l, Z.div_mul by lia. lia.
Qed.

(** C5, as the code has it: when [V] is a multiple of [B] (as in the source,
    [V = 120] and [B = 4]) and [W = ceil(V / B)], for every bucket [i] of
    [0, B) the classifier maps the lower label [low_i] and the upper label
    [high_i] printed by [mostrarConfiguracion] to [i]; moreover
    [classify(0) = 0] and [classify(V) = B - 1]. *)
Theorem calcularIndiceRango_limites (B V W i : Z) :
  1 ≤ B → 1 ≤ V → W = tamanoDeRango B V → (B | V) → 0 ≤ i < B →
  calcularIndiceRango B (limiteInferior B V W i) W = Some i
  ∧ calcularIndiceRango B (limiteSuperior B V W i) W = Some i
  ∧ calcularIndiceRango B 0 W = Some 0
  ∧ calcularIndiceRango B V W = Some (B - 1).
Proof.
  intros HB HV HW Hdiv Hi.
  pose proof (tamanoDeRango_exacto B V HB Hdiv) as HVW. rewrite <- HW in HVW.
  assert (1 ≤ W) as HW1 by nia.
  rewrite !calcularIndiceRango_positivo by done.
  unfold limiteInferior, limiteSuperior. rewrite HVW.
  assert (∀ k, 0 ≤ k → (k * W) `quot` W = k) as Hq1
    by (intros; apply Z.quot_mul; lia).
  assert (∀ k, 0 ≤ k → ((k + 1) * W - 1) `quot` W = k) as Hq2.
  { intros k Hk. rewrite Z.quot_div_nonneg by nia.
    symmetry. apply Z.div_unique with (W - 1); lia. }
  repeat split.
  - destruct (decide (i = 0)) as [->|Hi0].
    + rewrite decide_False by lia. rewrite Z.quot_0_l by lia.
      f_equal. lia.
    + rewrite decide_True by nia.
      replace (B * W - (B - i) * W + 1 - 1) with (i * W) by lia.
      rewrite Hq1 by lia. f_equal. lia.
  - rewrite decide_True by nia.
    replace (B * W - (B - 1 - i) * W - 1) with ((i + 1) * W - 1) by lia.
    rewrite Hq2 by lia. f_equal. lia.
  - rewrite decide_False by lia. rewrite Z.quot_0_l by lia. f_equal. lia.
  - rewrite decide_True by nia.
    replace (B * W - 1) with ((B - 1 + 1) * W - 1) by lia.
    rewrite Hq2 by lia. f_equal. lia.
Qed.

Lemma calcularIndiceRango_limites_testigo :
  calcularIndiceRango CANTIDAD_RANGOS
    (limiteInferior CANTIDAD_RANGOS VALOR_MAXIMO TAMANO_RANGO 2) TAMANO_RANGO
  = Some 2
  ∧ calcularIndiceRango CANTIDAD_RANGOS
      (limiteSuperior CANTIDAD_RANGOS VALOR_MAXIMO TAMANO_RANGO 2) TAMANO_RANGO
    = Some 2
  ∧ calcularIndiceRango CANTIDAD_RANGOS 0 TAMANO_RANGO = Some 0
  ∧ calcularIndiceRango CANTIDAD_RANGOS VALOR_MAXIMO TAMANO_RANGO
    = Some (CANTIDAD_RANGOS - 1).
Proof.
  apply (calcularIndiceRango_limites CANTIDAD_RANGOS VALOR_MAXIMO TAMANO_RANGO 2).
  - vm_compute; discriminate.
  - vm_compute; discriminate.
  - reflexivity.
  - exists 30. reflexivity.
  - vm_compute. intuition discriminate.
Defined.

(** C5, as stated, fails when [B] does not divide [V]: with [B = 4] and
    [V = 5] the width is [2], the upper label of bucket 1 is [1], which is
    classified into bucket 0, and [V] itself is classified into bucket 2,
    not into the last one. *)
Lemma calcularIndiceRango_limites_indivisible :
  tamanoDeRango CANTIDAD_RANGOS 5 = 2
  ∧ limiteSuperior CANTIDAD_RANGOS 5 2 1 = 1
  ∧ calcularIndiceRango CANTIDAD_RANGOS (limiteSuperior CANTIDAD_RANGOS 5 2 1) 2
    = Some 0
  ∧ calcularIndiceRango CANTIDAD_RANGOS (limiteSuperior CANTIDAD_RANGOS 5 2 1) 2
    ≠ Some 1
  ∧ calcularIndiceRango CANTIDAD_RANGOS 5 2 ≠ Some (CANTIDAD_RANGOS - 1).
Proof. repeat split; (reflexivity || (vm_compute; discriminate)). Qed.

(** ** Running sums *)

Lemma prefijos_lookup s l (k : nat) :
  (k < length l)%nat → prefijos s l !! k = Some (s + sumaZ (take (S k) l)).
Proof.
  revert s k. induction l as [|x l IH]; intros s k Hk; simpl in *; [lia|].
  destruct k as [|k].
  - simpl. f_equal. unfold sumaZ. simpl. lia.
  - simpl. rewrite IH by lia. f_equal. unfold sumaZ. simpl. lia.
Qed.

Lemma sumaZ_no_negativo l : Forall (λ x, 0 ≤ x) l → 0 ≤ sumaZ l.
Proof. unfold sumaZ. induction 1; simpl; lia. Qed.

(** The running sums of entries that are not negative do not decrease. *)
Lemma prefijos_monotono s l (k : nat) a b :
  Forall (λ x, 0 ≤ x) l →
  prefijos s l !! k = Some a → prefijos s l !! S k = Some b → a ≤ b.
Proof.
  intros Hl. revert s k. induction Hl as [|x l Hx Hl IH]; intros s k; [done|].
  destruct k as [|k]; simpl.
  - intros [= <-]. destruct Hl as [|y l Hy _]; simpl; [done|].
    intros [= <-]. lia.
  - apply IH.
Qed.

(** ** Sums of one-hot rows *)

Lemma sumaFilas_suma n inicio filas :
  length inicio = n → Forall (λ f, length f = n ∧ sumaZ f = 1) filas →
  sumaZ (sumaFilas inicio filas) = sumaZ inicio + Z.of_nat (length filas).
Proof.
  intros Hi Hf. revert inicio Hi.
  induction Hf as [|f filas [Hlen Hsum] _ IH]; intros inicio Hi; simpl; [lia|].
  rewrite IH by (rewrite sumaVec_length; lia).
  rewrite sumaZ_sumaVec by lia. lia.
Qed.

Lemma sumaFilas_no_negativo inicio filas :
  Forall (λ x, 0 ≤ x) inicio → Forall (Forall (λ x, 0 ≤ x)) filas →
  Forall (λ x, 0 ≤ x) (sumaFilas inicio filas).
Proof.
  intros Hi Hf. revert inicio Hi.
  induction Hf as [|f filas Hf _ IH]; intros inicio Hi; simpl; [done|].
  apply IH. by apply sumaVec_no_negativo.
Qed.

(** The sum of a sequence of vectors does not depend on their order. *)
Lemma sumaFilas_perm inicio filas1 filas2 :
  filas1 ≡ₚ filas2 → sumaFilas inicio filas1 = sumaFilas inicio filas2.
Proof.
  intros Hperm. revert inicio.
  induction Hperm as [|f filas1 filas2 _ IH|f g filas|filas1 filas2 filas3 _ IH1 _ IH2];
    intros inicio; simpl.
  - done.
  - apply IH.
  - by rewrite !sumaVec_assoc, (sumaVec_comm g f).
  - by rewrite IH1.
Qed.

(** Mapping a fallible function over a permuted list fails on both lists or
    gives permuted results. *)
Lemma mapM_perm {A C : Type} (f : A → option C) (xs ys : list A) :
  xs ≡ₚ ys → option_Forall2 (≡ₚ) (mapM f xs) (mapM f ys).
Proof.
  intros Hperm.
  induction Hperm as [|x xs ys _ IH|x y xs|xs ys zs _ IH1 _ IH2].
  - by constructor.
  - cbn [mapM]. destruct (f x); [|constructor]. simpl.
    destruct IH as [rs1 rs2 Hrs|]; constructor. by constructor.
  - cbn [mapM]. destruct (f x), (f y); simpl; try constructor.
    destruct (mapM f xs); simpl; constructor. apply perm_swap.
  - destruct IH1 as [rs1 rs2 H12|]; [|done].
    inversion IH2 as [rs2' rs3 H23|]; subst. constructor. by trans rs2.
Qed.

(** ** What a completed run has computed *)

Section Resultado.
Context (B W : Z).
Local Abbreviation B' := (Z.to_nat B).
Implicit Types (xs : list Z) (m : Memoria).

Lemma resultado_definido xs :
  1 ≤ B → 1 ≤ W → Forall (λ x, 0 ≤ x) xs → is_Some (resultado B W xs).
Proof.
  intros HB HW Hxs. unfold resultado.
  destruct (mapM_is_Some_2 (filaDe B W) xs) as [filas ->]; [|done].
  eapply Forall_impl; [done|]. intros x Hx. simpl. unfold filaDe.
  destruct (calcularIndiceRango_en_rango B x W) as (b & -> & Hb); [done..|].
  simpl. apply mk_is_Some with (<[Z.to_nat b := 1]> (ceros B)).
  apply escribir_Some. by rewrite ceros_length, Z2Nat.id by lia.
Qed.

Lemma resultado_Some xs m :
  resultado B W xs = Some m →
  datos m = xs
  ∧ mapM (filaDe B W) xs = Some (valoresMapeados m)
  ∧ histograma m = sumaFilas (ceros B) (valoresMapeados m)
  ∧ histogramaAcumulado m = prefijos 0 (histograma m).
Proof.
  unfold resultado. intros (filas & Hf & [= <-])%bind_Some. done.
Qed.

Lemma resultado_histograma xs m :
  resultado B W xs = Some m →
  length (histograma m) = B'
  ∧ Forall (λ x, 0 ≤ x) (histograma m)
  ∧ sumaZ (histograma m) = Z.of_nat (length xs).
Proof.
  intros (_ & Hf & -> & _)%resultado_Some.
  pose proof (length_mapM _ _ _ Hf) as Hn. split; [|split].
  - apply sumaFilas_length; [apply ceros_length|by eapply filas_length].
  - apply sumaFilas_no_negativo; [apply Forall_replicate; lia|].
    eapply filas_Forall; [|done]. apply filaDe_no_negativo.
  - rewrite (sumaFilas_suma B'); [|apply ceros_length|].
    + unfold ceros. rewrite sumaZ_replicate_0. lia.
    + eapply filas_Forall; [|done]. intros x fila Hx.
      split; [by eapply filaDe_length|by eapply filaDe_suma].
Qed.

(** The cumulative histogram of permuted inputs is the same. *)
Lemma resultado_perm xs ys :
  xs ≡ₚ ys →
  histogramaAcumulado <$> resultado B W xs
  = histogramaAcumulado <$> resultado B W ys.
Proof.
  intros Hperm. unfold resultado.
  destruct (mapM_perm (filaDe B W) xs ys Hperm) as [f1 f2 Hf|]; [|done].
  simpl. by rewrite (sumaFilas_perm _ f1 f2).
Qed.
End Resultado.

(** ** No counter overflows *)

Lemma sumaZ_cota l x : Forall (λ v, 0 ≤ v) l → x ∈ l → 0 ≤ x ≤ sumaZ l.
Proof.
  intros Hl Hx. induction Hl as [|y l Hy Hl IH]; [by apply elem_of_nil in Hx|].
  pose proof (sumaZ_no_negativo l Hl). unfold sumaZ in *. simpl.
  apply elem_of_cons in Hx as [->|Hx]; [lia|]. specialize (IH Hx). lia.
Qed.

Lemma prefijos_cota s l :
  Forall (λ v, 0 ≤ v) l → Forall (λ v, s ≤ v ≤ s + sumaZ l) (prefijos s l).
Proof.
  intros Hl. revert s. induction Hl as [|y l Hy Hl IH]; intros s; simpl;
    [constructor|].
  pose proof (sumaZ_no_negativo l Hl). unfold sumaZ in *. simpl.
  constructor; [lia|]. eapply Forall_impl; [apply IH|]. simpl. lia.
Qed.

(** Every entry of the histogram and of the cumulative histogram of a run
    lies between zero and the number of input elements: when that number is
    an [int], so is everything the pipeline adds up. *)
Lemma resultado_acotado B W xs m :
  resultado B W xs = Some m → Z.of_nat (length xs) ≤ INT_MAX →
  Forall (λ v, 0 ≤ v ≤ INT_MAX) (histograma m)
  ∧ Forall (λ v, 0 ≤ v ≤ INT_MAX) (histogramaAcumulado m).
Proof.
  intros Hm Hn.
  destruct (resultado_histograma _ _ _ _ Hm) as (_ & Hpos & Hsum).
  apply resultado_Some in Hm as (_ & _ & _ & ->). split.
  - apply Forall_forall. intros v Hv.
    pose proof (sumaZ_cota _ _ Hpos Hv). lia.
  - eapply Forall_impl; [by apply prefijos_cota|]. simpl. lia.
Qed.

(** ** The two backends *)

Lemma tamanoDeRango_positivo B V : 1 ≤ B → 1 ≤ V → 1 ≤ tamanoDeRango B V.
Proof.
  intros HB HV. unfold tamanoDeRango.
  assert ((- V) `div` B < 0) by (apply Z.div_lt_upper_bound; lia). lia.
Qed.

(** C1: on an input whose number of elements is an [int], whatever the
    decomposition the scheduler chooses for the three parallel stages, the
    parallel backend ends with the same store as the sequential one (the
    same mapped vectors, histogram and cumulative histogram); and on an input
    of values of [0, V], with [V >= 1] and [W = ceil(V / B)], that common
    result exists. *)
Theorem ejecutarParalelo_ejecutarSecuencial
    (B V W : Z) (xs : list Z) (plan : Planificacion) :
  Z.of_nat (length xs) ≤ INT_MAX →
  planificacion_valida B (Z.of_nat (length xs)) plan →
  ejecutarParalelo B plan xs W = ejecutarSecuencial B xs W
  ∧ (1 ≤ B → 1 ≤ V → W = tamanoDeRango B V → Forall (λ x, 0 ≤ x ≤ V) xs →
     is_Some (ejecutarSecuencial B xs W)).
Proof.
  intros _ Hplan. split.
  - by rewrite ejecutarParalelo_forma, ejecutarSecuencial_forma.
  - intros HB HV -> Hxs. rewrite ejecutarSecuencial_forma.
    apply resultado_definido; [done|by apply tamanoDeRango_positivo|].
    eapply Forall_impl; [done|]. simpl. lia.
Qed.

Lemma ejecutarParalelo_ejecutarSecuencial_testigo :
  ejecutarParalelo CANTIDAD_RANGOS plan_demo datos_demo TAMANO_RANGO
  = ejecutarSecuencial CANTIDAD_RANGOS datos_demo TAMANO_RANGO
  ∧ (1 ≤ CANTIDAD_RANGOS → 1 ≤ VALOR_MAXIMO →
     TAMANO_RANGO = tamanoDeRango CANTIDAD_RANGOS VALOR_MAXIMO →
     Forall (λ x, 0 ≤ x ≤ VALOR_MAXIMO) datos_demo →
     is_Some (ejecutarSecuencial CANTIDAD_RANGOS datos_demo TAMANO_RANGO)).
Proof.
  apply (ejecutarParalelo_ejecutarSecuencial
           CANTIDAD_RANGOS VALOR_MAXIMO TAMANO_RANGO datos_demo plan_demo).
  - vm_compute; discriminate.
  - split; [|split].
    + apply (bool_decide_unpack _). vm_compute. exact I.
    + reflexivity.
    + reflexivity.
Defined.

(** Both backends complete on values that are not negative, with the same
    store. *)
Lemma ejecucion_definida B W xs plan :
  1 ≤ B → 1 ≤ W → Forall (λ x, 0 ≤ x) xs →
  planificacion_valida B (Z.of_nat (length xs)) plan →
  ∃ m, resultado B W xs = Some m
       ∧ ejecutarSecuencial B xs W = Some m
       ∧ ejecutarParalelo B plan xs W = Some m.
Proof.
  intros HB HW Hxs Hplan.
  destruct (resultado_definido B W xs HB HW Hxs) as [m Hm]. exists m.
  by rewrite ejecutarSecuencial_forma, ejecutarParalelo_forma.
Qed.

Lemma ejecucion_resultado B W xs plan m :
  planificacion_valida B (Z.of_nat (length xs)) plan →
  ejecutarSecuencial B xs W = Some m ∨ ejecutarParalelo B plan xs W = Some m →
  resultado B W xs = Some m.
Proof.
  intros Hplan [Hm|Hm].
  - by rewrite <- ejecutarSecuencial_forma.
  - by rewrite <- (ejecutarParalelo_forma B W plan).
Qed.

(** C3: on [N] values of [0, V], [N] being an [int], with a width [W >= 1],
    both backends complete with a histogram whose entries sum to [N] and with
    a cumulative histogram whose last entry, the one of index [B - 1], is
    [N]. *)
Theorem suma_preservada (B V W : Z) (xs : list Z) (plan : Planificacion) :
  Z.of_nat (length xs) ≤ INT_MAX →
  1 ≤ B → 1 ≤ W → Forall (λ x, 0 ≤ x ≤ V) xs →
  planificacion_valida B (Z.of_nat (length xs)) plan →
  ∃ m, ejecutarSecuencial B xs W = Some m
       ∧ ejecutarParalelo B plan xs W = Some m
       ∧ sumaZ (histograma m) = Z.of_nat (length xs)
       ∧ leer (histogramaAcumulado m) (B - 1) = Some (Z.of_nat (length xs)).
Proof.
  intros _ HB HW Hxs Hplan.
  destruct (ejecucion_definida B W xs plan) as (m & Hm & Hsec & Hpar);
    [done|done| |done|].
  { eapply Forall_impl; [done|]. simpl. lia. }
  exists m. split; [done|]. split; [done|].
  destruct (resultado_histograma _ _ _ _ Hm) as (Hlen & _ & Hsum).
  apply resultado_Some in Hm as (_ & _ & _ & ->). split; [done|].
  unfold leer. rewrite decide_True by lia.
  rewrite prefijos_lookup by lia.
  replace (S (Z.to_nat (B - 1))) with (length (histograma m)) by lia.
  rewrite firstn_all, Hsum. done.
Qed.

Lemma suma_preservada_testigo :
  ∃ m, ejecutarSecuencial CANTIDAD_RANGOS datos_demo TAMANO_RANGO = Some m
       ∧ ejecutarParalelo CANTIDAD_RANGOS plan_demo datos_demo TAMANO_RANGO = Some m
       ∧ sumaZ (histograma m) = Z.of_nat (length datos_demo)
       ∧ leer (histogramaAcumulado m) (CANTIDAD_RANGOS - 1)
         = Some (Z.of_nat (length datos_demo)).
Proof.
  apply (suma_preservada CANTIDAD_RANGOS VALOR_MAXIMO TAMANO_RANGO
           datos_demo plan_demo).
  - vm_compute; discriminate.
  - vm_compute; discriminate.
  - vm_compute; discriminate.
  - apply (bool_decide_unpack _). vm_compute. exact I.
  - split; [|split].
    + apply (bool_decide_unpack _). vm_compute. exact I.
    + reflexivity.
    + reflexivity.
Defined.

(** C6: the cumulative histogram a run of either backend ends with has an
    entry at every index of [0, B) and does not decrease:
    [cumulative[j - 1] <= cumulative[j]] for [0 < j < B]. *)
Theorem acumulado_monotono
    (B W : Z) (xs : list Z) (plan : Planificacion) (m : Memoria) (j : Z) :
  planificacion_valida B (Z.of_nat (length xs)) plan →
  ejecutarSecuencial B xs W = Some m ∨ ejecutarParalelo B plan xs W = Some m →
  0 < j < B →
  ∃ a b, leer (histogramaAcumulado m) (j - 1) = Some a
         ∧ leer (histogramaAcumulado m) j = Some b
         ∧ a ≤ b.
Proof.
  intros Hplan Hm Hj. apply ejecucion_resultado in Hm; [|done].
  destruct (resultado_histograma _ _ _ _ Hm) as (Hlen & Hpos & _).
  apply resultado_Some in Hm as (_ & _ & _ & Hha).
  assert (length (histogramaAcumulado m) = Z.to_nat B) as Hlha
    by (by rewrite Hha, prefijos_length).
  destruct (lookup_lt_is_Some_2 (histogramaAcumulado m) (Z.to_nat (j - 1)))
    as [a Ha]; [lia|].
  destruct (lookup_lt_is_Some_2 (histogramaAcumulado m) (Z.to_nat j))
    as [b Hb]; [lia|].
  exists a, b. unfold leer. rewrite !decide_True by lia.
  split; [done|]. split; [done|].
  rewrite Hha in Ha, Hb.
  replace (Z.to_nat j) with (S (Z.to_nat (j - 1))) in Hb by lia.
  by eapply prefijos_monotono.
Qed.

Lemma acumulado_monotono_testigo :
  ∃ a b, leer (histogramaAcumulado memoria_demo) (2 - 1) = Some a
         ∧ leer (histogramaAcumulado memoria_demo) 2 = Some b
         ∧ a ≤ b.
Proof.
  apply (acumulado_monotono CANTIDAD_RANGOS TAMANO_RANGO datos_demo plan_demo
           memoria_demo 2).
  - split; [|split].
    + apply (bool_decide_unpack _). vm_compute. exact I.
    + reflexivity.
    + reflexivity.
  - right. reflexivity.
  - vm_compute. intuition discriminate.
Defined.

(** C8: the cumulative histogram does not depend on the order of the input:
    for an input [xs] whose number of elements is an [int] and a permutation
    [ys] of it, each backend ends with the same cumulative histogram on [ys]
    as on [xs] (or with none on both), whatever the decompositions of the two
    parallel runs. *)
Theorem permutacion_invariante
    (B W : Z) (xs ys : list Z) (plan1 plan2 : Planificacion) :
  Z.of_nat (length xs) ≤ INT_MAX →
  xs ≡ₚ ys →
  planificacion_valida B (Z.of_nat (length xs)) plan1 →
  planificacion_valida B (Z.of_nat (length ys)) plan2 →
  histogramaAcumulado <$> ejecutarSecuencial B ys W
  = histogramaAcumulado <$> ejecutarSecuencial B xs W
  ∧ histogramaAcumulado <$> ejecutarParalelo B plan2 ys W
    = histogramaAcumulado <$> ejecutarParalelo B plan1 xs W.
Proof.
  intros _ Hperm Hplan1 Hplan2.
  rewrite !ejecutarSecuencial_forma, !ejecutarParalelo_forma by done.
  split; symmetry; by apply resultado_perm.
Qed.

Lemma permutacion_invariante_testigo :
  histogramaAcumulado
    <$> ejecutarSecuencial CANTIDAD_RANGOS
          [0; 10; 30; 40; 60; 70; 90; 100; 115; 120] TAMANO_RANGO
  = histogramaAcumulado
      <$> ejecutarSecuencial CANTIDAD_RANGOS datos_demo TAMANO_RANGO
  ∧ histogramaAcumulado
      <$> ejecutarParalelo CANTIDAD_RANGOS plan_demo
            [0; 10; 30; 40; 60; 70; 90; 100; 115; 120] TAMANO_RANGO
    = histogramaAcumulado
        <$> ejecutarParalelo CANTIDAD_RANGOS plan_demo datos_demo TAMANO_RANGO.
Proof.
  apply (permutacion_invariante CANTIDAD_RANGOS TAMANO_RANGO datos_demo
           [0; 10; 30; 40; 60; 70; 90; 100; 115; 120] plan_demo plan_demo).
  - vm_compute; discriminate.
  - apply (bool_decide_unpack _). vm_compute. exact I.
  - split; [|split].
    + apply (bool_decide_unpack _). vm_compute. exact I.
    + reflexivity.
    + reflexivity.
  - split; [|split].
    + apply (bool_decide_unpack _). vm_compute. exact I.
    + reflexivity.
    + reflexivity.
Defined.

(** ** What the stages leave untouched *)

Section Marco.
Context (B W : Z).
Implicit Types (m : Memoria).

Lemma cuerpoMapeo_marco i m1 m2 :
  cuerpoMapeo B W i m1 = Some m2 →
  datos m2 = datos m1 ∧ histograma m2 = histograma m1
  ∧ histogramaAcumulado m2 = histogramaAcumulado m1.
Proof.
  unfold cuerpoMapeo. intros Hm.
  repeat (apply bind_Some in Hm as (? & _ & Hm)). by injection Hm as <-.
Qed.

Lemma cuerpoReduccionSec_marco fila m1 m2 :
  cuerpoReduccionSec B fila m1 = Some m2 →
  datos m2 = datos m1 ∧ valoresMapeados m2 = valoresMapeados m1
  ∧ histogramaAcumulado m2 = histogramaAcumulado m1.
Proof.
  unfold cuerpoReduccionSec. intros (h & _ & [= <-])%bind_Some. done.
Qed.

Lemma cuerpoEscaneo_marco esFinal i s1 m1 s2 m2 :
  cuerpoEscaneo esFinal i (s1, m1) = Some (s2, m2) →
  datos m2 = datos m1 ∧ valoresMapeados m2 = valoresMapeados m1
  ∧ histograma m2 = histograma m1.
Proof.
  unfold cuerpoEscaneo. intros (h & _ & Hm)%bind_Some. destruct esFinal.
  - apply bind_Some in Hm as (ha & _ & [= _ <-]). done.
  - by injection Hm as _ <-.
Qed.

(** The mapping stage of either backend writes [valoresMapeados] only. *)
Lemma mapeo_marco (ks : list Z) m1 m2 :
  para_cada ks (cuerpoMapeo B W) m1 = Some m2 →
  datos m2 = datos m1 ∧ histograma m2 = histograma m1
  ∧ histogramaAcumulado m2 = histogramaAcumulado m1.
Proof.
  apply (para_cada_inv
    (λ m, datos m = datos m1 ∧ histograma m = histograma m1
          ∧ histogramaAcumulado m = histogramaAcumulado m1)); [|done].
  intros i ma mb _ (Hd & Hh & Hha) (-> & -> & ->)%cuerpoMapeo_marco. done.
Qed.

(** The sequential reduction writes [histograma] only. *)
Lemma reduccionSec_marco (filas : list (list Z)) m1 m2 :
  para_cada filas (cuerpoReduccionSec B) m1 = Some m2 →
  datos m2 = datos m1 ∧ valoresMapeados m2 = valoresMapeados m1
  ∧ histogramaAcumulado m2 = histogramaAcumulado m1.
Proof.
  apply (para_cada_inv
    (λ m, datos m = datos m1 ∧ valoresMapeados m = valoresMapeados m1
          ∧ histogramaAcumulado m = histogramaAcumulado m1)); [|done].
  intros f ma mb _ (Hd & Hv & Hha) (-> & -> & ->)%cuerpoReduccionSec_marco.
  done.
Qed.

(** A pass of the scan body, final or not, writes [histogramaAcumulado]
    only; so does the sequential scan, whose body is the final one. *)
Lemma escanearRango_marco lo hi s1 esFinal m1 s2 m2 :
  escanearRango lo hi s1 esFinal m1 = Some (s2, m2) →
  datos m2 = datos m1 ∧ valoresMapeados m2 = valoresMapeados m1
  ∧ histograma m2 = histograma m1.
Proof.
  unfold escanearRango, bucle. intros Hm.
  apply (para_cada_inv
    (λ st : Z * Memoria,
       datos st.2 = datos m1 ∧ valoresMapeados st.2 = valoresMapeados m1
       ∧ histograma st.2 = histograma m1)) in Hm; [done| |done].
  intros i [sa ma] [sb mb] _ (Hd & Hv & Hh) (Hd' & Hv' & Hh')%cuerpoEscaneo_marco.
  simpl in *. by rewrite Hd', Hv', Hh'.
Qed.

Lemma pre_scan_marco plan m1 ps m2 :
  pre_scan plan 0 escanearRango m1 = Some (ps, m2) →
  datos m2 = datos m1 ∧ valoresMapeados m2 = valoresMapeados m1
  ∧ histograma m2 = histograma m1.
Proof.
  revert m1 ps. induction plan as [|t plan IH]; intros m1 ps; cbn [pre_scan].
  - by intros [= _ <-].
  - destruct (t_pre t).
    + intros ([v ma] & Ha & Hm)%bind_Some.
      apply bind_Some in Hm as ([ps' mb] & Hb & [= _ <-]).
      apply escanearRango_marco in Ha as (<- & <- & <-). by eapply IH.
    + intros ([ps' mb] & Hb & [= _ <-])%bind_Some. by eapply IH.
Qed.

Lemma final_scan_marco ps s1 m1 s2 m2 :
  final_scan ps s1 escanearRango Z.add m1 = Some (s2, m2) →
  datos m2 = datos m1 ∧ valoresMapeados m2 = valoresMapeados m1
  ∧ histograma m2 = histograma m1.
Proof.
  revert s1 m1. induction ps as [|[t p] ps IH]; intros s1 m1; cbn [final_scan].
  - by intros [= _ <-].
  - intros ([v ma] & Ha & Hm)%bind_Some.
    apply escanearRango_marco in Ha as (<- & <- & <-). by eapply IH.
Qed.

(** The scan stage of the parallel backend, for any decomposition. *)
Lemma parallel_scan_marco plan m1 s2 m2 :
  parallel_scan plan 0 escanearRango Z.add m1 = Some (s2, m2) →
  datos m2 = datos m1 ∧ valoresMapeados m2 = valoresMapeados m1
  ∧ histograma m2 = histograma m1.
Proof.
  unfold parallel_scan. intros ([ps ma] & Ha & Hm)%bind_Some.
  apply pre_scan_marco in Ha as (<- & <- & <-).
  by eapply final_scan_marco.
Qed.
End Marco.

(** C9: a run does not change its input, and no stage changes what it
    consumes.  The store a run of either backend ends with holds the input
    sequence it started with; the mapping stage of either backend leaves
    [datos] as it was; the sequential reduction leaves [datos] and
    [valoresMapeados] as they were (the parallel reduction is a value
    computation that writes nothing in the store); the scan stage of either
    backend leaves [datos], [valoresMapeados] and [histograma] as they
    were. *)
Theorem entrada_intacta
    (B W : Z) (xs : list Z) (plan : Planificacion) (m : Memoria) :
  planificacion_valida B (Z.of_nat (length xs)) plan →
  ejecutarSecuencial B xs W = Some m ∨ ejecutarParalelo B plan xs W = Some m →
  datos m = xs
  ∧ (∀ lo hi m1 m2,
       bucle lo hi (cuerpoMapeo B W) m1 = Some m2 → datos m2 = datos m1)
  ∧ (∀ rangos m1 m2,
       parallel_for rangos (λ lo hi, bucle lo hi (cuerpoMapeo B W)) m1 = Some m2 →
       datos m2 = datos m1)
  ∧ (∀ filas m1 m2,
       para_cada filas (cuerpoReduccionSec B) m1 = Some m2 →
       datos m2 = datos m1 ∧ valoresMapeados m2 = valoresMapeados m1)
  ∧ (∀ lo hi s1 m1 s2 m2,
       bucle lo hi cuerpoEscaneoSec (s1, m1) = Some (s2, m2) →
       datos m2 = datos m1 ∧ valoresMapeados m2 = valoresMapeados m1
       ∧ histograma m2 = histograma m1)
  ∧ (∀ tramos m1 s2 m2,
       parallel_scan tramos 0 escanearRango Z.add m1 = Some (s2, m2) →
       datos m2 = datos m1 ∧ valoresMapeados m2 = valoresMapeados m1
       ∧ histograma m2 = histograma m1).
Proof.
  intros Hplan Hm. apply ejecucion_resultado in Hm; [|done].
  apply resultado_Some in Hm as (Hd & _). split; [done|].
  split; [|split; [|split; [|split]]].
  - intros lo hi m1 m2 Hm. by apply mapeo_marco in Hm as (? & _).
  - intros rangos m1 m2 Hm. rewrite parallel_for_indices in Hm.
    by apply mapeo_marco in Hm as (? & _).
  - intros filas m1 m2 Hm. by apply reduccionSec_marco in Hm as (? & ? & _).
  - intros lo hi s1 m1 s2 m2 Hm. apply (escanearRango_marco lo hi s1 true m1 s2 m2).
    rewrite <- Hm. unfold escanearRango, bucle. apply para_cada_ext.
    intros. symmetry. apply cuerpoEscaneoSec_final.
  - intros tramos m1 s2 m2. apply parallel_scan_marco.
Qed.

Lemma entrada_intacta_testigo : datos memoria_demo = datos_demo.
Proof.
  apply (entrada_intacta CANTIDAD_RANGOS TAMANO_RANGO datos_demo plan_demo
           memoria_demo).
  - split; [|split].
    + apply (bool_decide_unpack _). vm_compute. exact I.
    + reflexivity.
    + reflexivity.
  - right. reflexivity.
Defined.

(** ** A width of zero *)

Lemma prefijos_ceros n : prefijos 0 (replicate n 0) = replicate n 0.
Proof. induction n as [|n IH]; simpl; [done|]. by rewrite Z.add_0_r, IH. Qed.

Lemma resultado_ancho_cero B xs :
  resultado B 0 xs = if decide (xs = []) then Some (memoriaInicial B []) else None.
Proof.
  unfold resultado. destruct xs as [|x xs]; simpl.
  - unfold memoriaInicial, ceros. simpl. by rewrite prefijos_ceros.
  - unfold filaDe, calcularIndiceRango, dividir. simpl. done.
Qed.

(** C7, as the code has it: there is no check of the configuration.  With a
    width of zero a run on an empty input goes through its three stages and
    ends with the all-zero histogram and cumulative histogram, and a run on
    an input that is not empty, of a number of elements that is an [int],
    has no result in either backend, because the first classification of the
    mapping stage divides by zero. *)
Theorem ancho_cero (B : Z) (xs : list Z) (plan : Planificacion) :
  Z.of_nat (length xs) ≤ INT_MAX →
  planificacion_valida B (Z.of_nat (length xs)) plan →
  (xs = [] →
   ejecutarSecuencial B xs 0 = Some (memoriaInicial B [])
   ∧ ejecutarParalelo B plan xs 0 = Some (memoriaInicial B []))
  ∧ (xs ≠ [] →
     ejecutarSecuencial B xs 0 = None ∧ ejecutarParalelo B plan xs 0 = None).
Proof.
  intros _ Hplan.
  rewrite ejecutarSecuencial_forma, ejecutarParalelo_forma by done.
  rewrite resultado_ancho_cero. split; intros Hxs.
  - by rewrite decide_True.
  - by rewrite decide_False.
Qed.

Lemma ancho_cero_testigo :
  (datos_demo = [] →
   ejecutarSecuencial CANTIDAD_RANGOS datos_demo 0
   = Some (memoriaInicial CANTIDAD_RANGOS [])
   ∧ ejecutarParalelo CANTIDAD_RANGOS plan_demo datos_demo 0
     = Some (memoriaInicial CANTIDAD_RANGOS []))
  ∧ (datos_demo ≠ [] →
     ejecutarSecuencial CANTIDAD_RANGOS datos_demo 0 = None
     ∧ ejecutarParalelo CANTIDAD_RANGOS plan_demo datos_demo 0 = None).
Proof.
  apply (ancho_cero CANTIDAD_RANGOS datos_demo plan_demo).
  - vm_compute; discriminate.
  - split; [|split].
    + apply (bool_decide_unpack _). vm_compute. exact I.
    + reflexivity.
    + reflexivity.
Defined.

(** C7, as stated, fails: the maximum value [0] is an invalid configuration
    and gives the width [0], and yet the sequential run on the empty input
    completes, with the all-zero cumulative histogram, and so does the
    parallel one. *)
Lemma ancho_cero_sin_error :
  tamanoDeRango CANTIDAD_RANGOS 0 = 0
  ∧ ejecutarSecuencial CANTIDAD_RANGOS [] (tamanoDeRango CANTIDAD_RANGOS 0)
    = Some {| datos := []; valoresMapeados := [];
              histograma := [0; 0; 0; 0];
              histogramaAcumulado := [0; 0; 0; 0] |}
  ∧ ejecutarParalelo CANTIDAD_RANGOS
      {| plan_mapeo := []; plan_reduccion := Hoja 0 0;
         plan_escaneo := [tramo 0 2 true; tramo 2 4 true] |}
      [] (tamanoDeRango CANTIDAD_RANGOS 0)
    = Some {| datos := []; valoresMapeados := [];
              histograma := [0; 0; 0; 0];
              histogramaAcumulado := [0; 0; 0; 0] |}.
Proof. repeat split. Qed.

(** ** The body of the parallel scan *)

Lemma tramoDe_take {A : Type} lo i hi (l : list A) :
  0 ≤ lo ≤ i → i ≤ hi →
  take (Z.to_nat (i - lo)) (tramoDe lo hi l) = tramoDe lo i l.
Proof.
  intros. unfold tramoDe. rewrite take_take. f_equal. lia.
Qed.

(** C10: the scan lambda is a two-pass body.  On every sub-range [lo, hi) of
    [0, B) and from every seed [s] such that the running sums of the pass,
    [s] plus the entries of [histograma] from [lo] on, are [int]s, whether
    the pass is final or not, it returns [s] plus the sum of the entries of
    [histograma] of the sub-range; a non-final pass leaves the store as it
    was; a final pass writes, at every index [i] of the sub-range, [s] plus
    the sum of the entries of indices [lo] to [i], and leaves the other
    entries of [histogramaAcumulado] as they were; hence, when the sum of
    the entries of every sub-range of [histograma] is an [int], on every
    decomposition of [0, B) into consecutive sub-ranges, each with or
    without a non-final pass before its final pass, [parallel_scan] ends
    with the store of the sequential scan, whose cumulative histogram is the
    inclusive prefix sum of [histograma]. *)
Theorem escaneo_dos_pasadas (B lo hi s : Z) (m : Memoria) :
  length (histograma m) = Z.to_nat B →
  length (histogramaAcumulado m) = Z.to_nat B →
  0 ≤ lo ≤ hi → hi ≤ B →
  (∀ i, lo ≤ i ≤ hi → es_int (s + sumaZ (tramoDe lo i (histograma m)))) →
  (∀ esFinal, ∃ m',
     escanearRango lo hi s esFinal m
     = Some (s + sumaZ (tramoDe lo hi (histograma m)), m'))
  ∧ escanearRango lo hi s false m
    = Some (s + sumaZ (tramoDe lo hi (histograma m)), m)
  ∧ (∃ m',
       escanearRango lo hi s true m
       = Some (s + sumaZ (tramoDe lo hi (histograma m)), m')
       ∧ (∀ i, lo ≤ i < hi →
            leer (histogramaAcumulado m') i
            = Some (s + sumaZ (tramoDe lo (i + 1) (histograma m))))
       ∧ (∀ i, ¬ (lo ≤ i < hi) →
            leer (histogramaAcumulado m') i = leer (histogramaAcumulado m) i))
  ∧ ((∀ a b, 0 ≤ a ≤ b → b ≤ B → es_int (sumaZ (tramoDe a b (histograma m)))) →
     ∀ plan, particion 0 B (rango_de <$> plan) = true →
       parallel_scan plan 0 escanearRango Z.add m
       = bucle 0 B cuerpoEscaneoSec (0, m)
       ∧ parallel_scan plan 0 escanearRango Z.add m
         = Some (sumaZ (histograma m),
                 con_histogramaAcumulado (prefijos 0 (histograma m)) m)).
Proof.
  intros Hh Hha Hlo Hhi _.
  pose proof (escanearRango_no_final lo hi s m) as Hno.
  pose proof (escanearRango_final lo hi s m) as Hfin.
  specialize (Hno ltac:(lia) ltac:(lia)).
  specialize (Hfin ltac:(lia) ltac:(lia) ltac:(lia)).
  split; [intros []; eauto|]. split; [done|]. split.
  - eexists. split; [done|]. cbn [histogramaAcumulado con_histogramaAcumulado].
    set (h := histograma m) in *. set (ha := histogramaAcumulado m) in *.
    assert (length (take (Z.to_nat lo) ha) = Z.to_nat lo) as Hl1
      by (rewrite length_take; lia).
    assert (length (prefijos s (tramoDe lo hi h)) = Z.to_nat (hi - lo)) as Hl2
      by (rewrite prefijos_length, tramoDe_length; lia).
    split.
    + intros i Hi. unfold leer. rewrite decide_True by lia.
      rewrite lookup_app_r, Hl1 by lia.
      rewrite lookup_app_l by lia.
      rewrite prefijos_lookup by (rewrite tramoDe_length; lia).
      replace (S (Z.to_nat i - Z.to_nat lo)) with (Z.to_nat (i + 1 - lo)) by lia.
      by rewrite tramoDe_take by lia.
    + intros i Hi. unfold leer. case_decide as Hi0; [|done].
      destruct (decide (i < lo)) as [Hlt|Hge].
      * rewrite lookup_app_l by lia. apply lookup_take_lt. lia.
      * rewrite lookup_app_r, Hl1 by lia.
        rewrite lookup_app_r, Hl2 by lia.
        rewrite lookup_drop. f_equal. lia.
  - intros _ plan Hplan.
    rewrite (parallel_scan_forma B), escaneoSec_forma by done. done.
Qed.

Lemma escaneo_dos_pasadas_testigo :
  parallel_scan (plan_escaneo plan_demo) 0 escanearRango Z.add
    (con_histogramaAcumulado [0; 0; 0; 0] memoria_demo)
  = bucle 0 CANTIDAD_RANGOS cuerpoEscaneoSec
      (0, con_histogramaAcumulado [0; 0; 0; 0] memoria_demo).
Proof.
  apply (escaneo_dos_pasadas CANTIDAD_RANGOS 1 3 0
           (con_histogramaAcumulado [0; 0; 0; 0] memoria_demo)).
  - reflexivity.
  - reflexivity.
  - lia.
  - vm_compute; discriminate.
  - intros i Hi. assert (i = 1 ∨ i = 2 ∨ i = 3) as [-> | [-> | ->]] by lia;
      vm_compute; split; discriminate.
  - intros a b Ha Hb.
    assert (a = 0 ∨ a = 1 ∨ a = 2 ∨ a = 3 ∨ a = 4)
      as [-> | [-> | [-> | [-> | ->]]]] by (unfold CANTIDAD_RANGOS in Hb; lia);
    assert (b = 0 ∨ b = 1 ∨ b = 2 ∨ b = 3 ∨ b = 4)
      as [-> | [-> | [-> | [-> | ->]]]] by (unfold CANTIDAD_RANGOS in Hb; lia);
    vm_compute; split; discriminate.
  - reflexivity.
Defined.

(** * Further properties of the program *)

(** ** The classifier, bucket by bucket *)

(** X1: for a width [W >= 1] the classifier is monotone: a larger value never
    gets a smaller bucket. *)
Theorem calcularIndiceRango_monotono (B W x y bx by_ : Z) :
  1 ≤ W → x ≤ y →
  calcularIndiceRango B x W = Some bx → calcularIndiceRango B y W = Some by_ →
  bx ≤ by_.
Proof.
  intros HW Hxy. rewrite !calcularIndiceRango_positivo by done.
  intros [= <-] [= <-].
  apply Z.min_le_compat_r. apply Z.quot_le_mono; [lia|].
  repeat case_decide; lia.
Qed.

Lemma calcularIndiceRango_monotono_testigo : 1 ≤ 2.
Proof.
  apply (calcularIndiceRango_monotono CANTIDAD_RANGOS TAMANO_RANGO 31 75 1 2);
    vm_compute; (reflexivity || discriminate).
Defined.

(** The quotient of the classifier for a positive value. *)
Lemma cociente_positivo W x i :
  1 ≤ W → 1 ≤ x → ((x - 1) `quot` W = i ↔ i * W < x ≤ (i + 1) * W).
Proof.
  intros HW Hx. rewrite Z.quot_div_nonneg by lia. split.
  - intros <-. pose proof (Z.div_mod (x - 1) W ltac:(lia)).
    pose proof (Z.mod_pos_bound (x - 1) W ltac:(lia)). nia.
  - intros Hi. symmetry. apply Z.div_unique with (x - 1 - i * W); lia.
Qed.

(** X2: which values a bucket holds.  For [W >= 1] and a value [x >= 1], the
    classifier returns a bucket [i] below the last one exactly when
    [i * W < x <= (i + 1) * W], and the last bucket [B - 1] exactly when
    [x > (B - 1) * W], however large [x] is; the values [0] and [1] are both
    in bucket [0]. *)
Theorem calcularIndiceRango_intervalo (B W x i : Z) :
  1 ≤ B → 1 ≤ W → 1 ≤ x →
  (calcularIndiceRango B x W = Some i ↔
     (i < B - 1 ∧ i * W < x ≤ (i + 1) * W) ∨ (i = B - 1 ∧ (B - 1) * W < x))
  ∧ calcularIndiceRango B 0 W = Some 0
  ∧ calcularIndiceRango B 1 W = Some 0.
Proof.
  intros HB HW Hx. rewrite !calcularIndiceRango_positivo by done.
  split; [|split].
  - rewrite decide_True by lia.
    pose proof (cociente_positivo W x ((x - 1) `quot` W) HW Hx) as [Hq _].
    specialize (Hq eq_refl).
    assert (0 ≤ (x - 1) `quot` W) by (apply Z.quot_pos; lia).
    split.
    + intros [= <-].
      destruct (decide ((x - 1) `quot` W < B - 1)) as [Hlt|Hge].
      * left. rewrite Z.min_l by lia. split; [done|lia].
      * right. rewrite Z.min_r by lia. split; [done|]. nia.
    + intros [[Hi Hxi]|[-> Hxi]]; f_equal.
      * apply (cociente_positivo W x i HW Hx) in Hxi. lia.
      * apply Z.min_r. destruct (decide (B - 1 ≤ (x - 1) `quot` W)); [done|]. nia.
  - rewrite decide_False by lia. rewrite Z.quot_0_l by lia. f_equal. lia.
  - rewrite decide_True by lia. simpl. rewrite Z.quot_0_l by lia. f_equal. lia.
Qed.

Lemma calcularIndiceRango_intervalo_testigo :
  (calcularIndiceRango CANTIDAD_RANGOS 500 TAMANO_RANGO = Some 3 ↔
     (3 < CANTIDAD_RANGOS - 1 ∧ 3 * TAMANO_RANGO < 500 ≤ (3 + 1) * TAMANO_RANGO)
     ∨ (3 = CANTIDAD_RANGOS - 1 ∧ (CANTIDAD_RANGOS - 1) * TAMANO_RANGO < 500))
  ∧ calcularIndiceRango CANTIDAD_RANGOS 0 TAMANO_RANGO = Some 0
  ∧ calcularIndiceRango CANTIDAD_RANGOS 1 TAMANO_RANGO = Some 0.
Proof.
  apply (calcularIndiceRango_intervalo CANTIDAD_RANGOS TAMANO_RANGO 500 3);
    vm_compute; discriminate.
Defined.

(** ** The labels of [mostrarConfiguracion] *)

(** The width computed in [main] is the least one with which [B] buckets
    reach [V]. *)
Lemma tamanoDeRango_techo B V :
  1 ≤ B → V ≤ B * tamanoDeRango B V < V + B.
Proof.
  intros HB. unfold tamanoDeRango.
  pose proof (Z.div_mod (- V) B ltac:(lia)).
  pose proof (Z.mod_pos_bound (- V) B ltac:(lia)). lia.
Qed.

Lemma tamanoDeRango_divide B V :
  1 ≤ B → (B * tamanoDeRango B V = V ↔ (B | V)).
Proof.
  intros HB. split.
  - intros <-. by apply Z.divide_factor_l.
  - intros Hdiv. symmetry. by apply tamanoDeRango_exacto.
Qed.

(** X3: the labels printed by [mostrarConfiguracion] leave no gap and do not
    overlap.  For a maximum value [V] of [0, INT_MAX] and a width [W >= 1]
    whose largest product in the labels, [(B - 1) * W], is an [int], and for
    buckets [i] and [i + 1] of [0, B): the first lower label is [0], the
    lower label of bucket [i + 1] is the upper label of bucket [i] plus one,
    bucket [i + 1] is labelled with [W] values, and the last upper label is
    [V]; every product and every label computed on the way is an [int]. *)
Theorem limites_consecutivos (B V W i : Z) :
  0 ≤ V ≤ INT_MAX → 1 ≤ W → (B - 1) * W ≤ INT_MAX →
  0 ≤ i → i + 1 < B →
  (∀ k, 1 ≤ k < B →
     es_int ((B - k) * W) ∧ es_int (V - (B - k) * W)
     ∧ es_int (limiteInferior B V W k))
  ∧ (∀ k, 0 ≤ k < B →
       es_int ((B - 1 - k) * W) ∧ es_int (limiteSuperior B V W k))
  ∧ limiteInferior B V W 0 = 0
  ∧ limiteInferior B V W (i + 1) = limiteSuperior B V W i + 1
  ∧ limiteSuperior B V W (i + 1) - limiteInferior B V W (i + 1) + 1 = W
  ∧ limiteSuperior B V W (B - 1) = V.
Proof.
  intros HV HW HBW Hi HiB. unfold es_int, INT_MIN, INT_MAX in *.
  split; [|split].
  - intros k Hk. unfold limiteInferior. rewrite decide_False by lia.
    assert (W ≤ (B - k) * W ≤ (B - 1) * W) by nia. lia.
  - intros k Hk. unfold limiteSuperior.
    assert (0 ≤ (B - 1 - k) * W ≤ (B - 1) * W) by nia. lia.
  - unfold limiteInferior, limiteSuperior.
    rewrite decide_True by done. rewrite decide_False by lia. lia.
Qed.

Lemma limites_consecutivos_testigo :
  limiteInferior CANTIDAD_RANGOS VALOR_MAXIMO TAMANO_RANGO 0 = 0
  ∧ limiteInferior CANTIDAD_RANGOS VALOR_MAXIMO TAMANO_RANGO (2 + 1)
    = limiteSuperior CANTIDAD_RANGOS VALOR_MAXIMO TAMANO_RANGO 2 + 1
  ∧ limiteSuperior CANTIDAD_RANGOS VALOR_MAXIMO TAMANO_RANGO (2 + 1)
    - limiteInferior CANTIDAD_RANGOS VALOR_MAXIMO TAMANO_RANGO (2 + 1) + 1
    = TAMANO_RANGO
  ∧ limiteSuperior CANTIDAD_RANGOS VALOR_MAXIMO TAMANO_RANGO (CANTIDAD_RANGOS - 1)
    = VALOR_MAXIMO.
Proof.
  apply (limites_consecutivos CANTIDAD_RANGOS VALOR_MAXIMO TAMANO_RANGO 2).
  - vm_compute. intuition discriminate.
  - vm_compute; discriminate.
  - vm_compute; discriminate.
  - lia.
  - vm_compute; reflexivity.
Defined.

(** X4: when [V] is a multiple of [B] and [W = ceil(V / B)], the labels say
    what the classifier does on the whole of [0, V]: a value [x] of [0, V]
    is classified into the bucket [i] exactly when it lies between the lower
    and the upper label of [i]. *)
Theorem limites_clasificador (B V W x i : Z) :
  1 ≤ B → 1 ≤ V → W = tamanoDeRango B V → (B | V) →
  0 ≤ x ≤ V → 0 ≤ i < B →
  calcularIndiceRango B x W = Some i
  ↔ limiteInferior B V W i ≤ x ≤ limiteSuperior B V W i.
Proof.
  intros HB HV HW Hdiv Hx Hi.
  pose proof (tamanoDeRango_exacto B V HB Hdiv) as HVW. rewrite <- HW in HVW.
  assert (1 ≤ W) as HW1 by nia.
  rewrite calcularIndiceRango_positivo by done.
  unfold limiteInferior, limiteSuperior. rewrite HVW.
  replace (B * W - (B - 1 - i) * W) with ((i + 1) * W) by lia.
  destruct (decide (x > 0)) as [Hx0|Hx0].
  - pose proof (cociente_positivo W x ((x - 1) `quot` W) HW1 ltac:(lia)) as [Hq _].
    specialize (Hq eq_refl).
    assert (0 ≤ (x - 1) `quot` W) by (apply Z.quot_pos; lia).
    assert ((x - 1) `quot` W ≤ B - 1) by nia.
    rewrite Z.min_l by lia.
    split.
    + intros [= <-]. case_decide; nia.
    + intros Hl. f_equal. apply cociente_positivo; [done|lia|].
      case_decide; [subst i|]; nia.
  - assert (x = 0) as -> by lia. rewrite Z.quot_0_l by lia.
    rewrite Z.min_l by lia. split.
    + intros [= <-]. rewrite decide_True by done. lia.
    + intros Hl. f_equal. case_decide; [done|nia].
Qed.

Lemma limites_clasificador_testigo :
  calcularIndiceRango CANTIDAD_RANGOS 61 TAMANO_RANGO = Some 2
  ↔ limiteInferior CANTIDAD_RANGOS VALOR_MAXIMO TAMANO_RANGO 2 ≤ 61
    ≤ limiteSuperior CANTIDAD_RANGOS VALOR_MAXIMO TAMANO_RANGO 2.
Proof.
  apply (limites_clasificador CANTIDAD_RANGOS VALOR_MAXIMO TAMANO_RANGO 61 2).
  - vm_compute; discriminate.
  - vm_compute; discriminate.
  - reflexivity.
  - exists 30. reflexivity.
  - vm_compute. intuition discriminate.
  - vm_compute. intuition discriminate.
Defined.

(** X5: the labels follow the classifier only when [B] divides [V].  With at
    least two buckets and [W = ceil(V / B)], the lower label of bucket 1 is
    classified into bucket 1 exactly when [V] is a multiple of [B]. *)
Theorem limites_divisibilidad (B V W : Z) :
  2 ≤ B → 1 ≤ V → W = tamanoDeRango B V →
  calcularIndiceRango B (limiteInferior B V W 1) W = Some 1 ↔ (B | V).
Proof.
  intros HB HV HW.
  pose proof (tamanoDeRango_techo B V ltac:(lia)) as Htecho.
  pose proof (tamanoDeRango_positivo B V ltac:(lia) HV) as HW1.
  rewrite <- (tamanoDeRango_divide B V) by lia. rewrite <- HW in *.
  rewrite calcularIndiceRango_positivo by done.
  unfold limiteInferior. destruct (decide (1 = 0)) as [?|_]; [lia|].
  split.
  - intros Hc. destruct (decide (B * W = V)) as [|Hne]; [done|exfalso].
    injection Hc as Hc. case_decide as Hpos.
    + assert ((V - (B - 1) * W + 1 - 1) `quot` W = 0)
        by (apply Z.quot_small; lia). lia.
    + assert ((V - (B - 1) * W + 1) `quot` W ≤ 0)
        by (apply Z.quot_le_upper_bound; lia). lia.
  - intros HVW. rewrite decide_True by lia.
    replace (V - (B - 1) * W + 1 - 1) with (1 * W) by lia.
    rewrite Z.quot_mul by lia. f_equal. lia.
Qed.

Lemma limites_divisibilidad_testigo :
  calcularIndiceRango CANTIDAD_RANGOS
    (limiteInferior CANTIDAD_RANGOS 5 (tamanoDeRango CANTIDAD_RANGOS 5) 1)
    (tamanoDeRango CANTIDAD_RANGOS 5) = Some 1
  ↔ (CANTIDAD_RANGOS | 5).
Proof.
  apply (limites_divisibilidad CANTIDAD_RANGOS 5 (tamanoDeRango CANTIDAD_RANGOS 5)).
  - vm_compute; discriminate.
  - lia.
  - reflexivity.
Defined.

(** ** When a run has a result *)

(** With a width [W >= 1], the index of a value is one of the array exactly
    when the value is above [-W]. *)
Lemma indice_en_rango_iff B W x :
  1 ≤ B → 1 ≤ W →
  (∃ b, calcularIndiceRango B x W = Some b ∧ 0 ≤ b < B) ↔ - W < x.
Proof.
  intros HB HW. rewrite calcularIndiceRango_positivo by done.
  set (q := (if decide (x > 0) then x - 1 else x) `quot` W).
  assert (0 ≤ q ↔ - W < x) as Hq.
  { unfold q. case_decide as Hx.
    - assert (0 ≤ (x - 1) `quot` W) by (apply Z.quot_pos; lia). lia.
    - destruct (decide (- W < x)) as [Hlt|Hge].
      + assert (x `quot` W = 0) by (apply Z.quot_small_iff; lia). lia.
      + assert (x `quot` W ≤ -1); [|lia].
        replace x with (- (- x)) by lia. rewrite Z.quot_opp_l by lia.
        assert (1 ≤ (- x) `quot` W); [|lia].
        rewrite Z.quot_div_nonneg by lia. apply Z.div_le_lower_bound; lia. }
  split.
  - intros (b & [= <-] & Hb). apply Hq. lia.
  - intros Hx. eexists; split; [done|]. apply Hq in Hx. lia.
Qed.

Lemma filaDe_is_Some B W x :
  is_Some (filaDe B W x) ↔ ∃ b, calcularIndiceRango B x W = Some b ∧ 0 ≤ b < B.
Proof.
  unfold filaDe. split.
  - intros [fila (b & Hb & Hf)%bind_Some]. exists b. split; [done|].
    apply escribir_Some in Hf as [Hr _]. rewrite ceros_length in Hr. lia.
  - intros (b & -> & Hb). simpl.
    apply mk_is_Some with (<[Z.to_nat b := 1]> (ceros B)).
    apply escribir_Some. by rewrite ceros_length, Z2Nat.id by lia.
Qed.

Lemma resultado_is_Some B W xs :
  is_Some (resultado B W xs)
  ↔ Forall (λ x, ∃ b, calcularIndiceRango B x W = Some b ∧ 0 ≤ b < B) xs.
Proof.
  unfold resultado. trans (Forall (is_Some ∘ filaDe B W) xs).
  - rewrite <- mapM_is_Some.
    destruct (mapM (filaDe B W) xs) as [filas|]; simpl; [|done].
    split; intros _; eauto.
  - apply Forall_iff. intros x. apply filaDe_is_Some.
Qed.

(** X6: when a run has a result.  With [B >= 1] and [W >= 1], on an input
    whose number of elements is an [int], a run of either backend has a
    result exactly when every input value is above [-W]: one value at or
    below [-W] is an index below zero in the mapping stage, a write outside
    the array, and there is no result at all. *)
Theorem ejecucion_definida_iff (B W : Z) (xs : list Z) (plan : Planificacion) :
  Z.of_nat (length xs) ≤ INT_MAX →
  1 ≤ B → 1 ≤ W →
  planificacion_valida B (Z.of_nat (length xs)) plan →
  (is_Some (ejecutarSecuencial B xs W) ↔ Forall (λ x, - W < x) xs)
  ∧ (is_Some (ejecutarParalelo B plan xs W) ↔ Forall (λ x, - W < x) xs).
Proof.
  intros _ HB HW Hplan.
  rewrite ejecutarSecuencial_forma, ejecutarParalelo_forma by done.
  rewrite resultado_is_Some.
  assert (Forall (λ x, ∃ b, calcularIndiceRango B x W = Some b ∧ 0 ≤ b < B) xs
          ↔ Forall (λ x, - W < x) xs) as ->; [|done].
  apply Forall_iff. intros x. by apply indice_en_rango_iff.
Qed.

Lemma ejecucion_definida_iff_testigo :
  (is_Some (ejecutarSecuencial CANTIDAD_RANGOS datos_demo TAMANO_RANGO)
   ↔ Forall (λ x, - TAMANO_RANGO < x) datos_demo)
  ∧ (is_Some (ejecutarParalelo CANTIDAD_RANGOS plan_demo datos_demo TAMANO_RANGO)
     ↔ Forall (λ x, - TAMANO_RANGO < x) datos_demo).
Proof.
  apply (ejecucion_definida_iff CANTIDAD_RANGOS TAMANO_RANGO datos_demo plan_demo).
  - vm_compute; discriminate.
  - vm_compute; discriminate.
  - vm_compute; discriminate.
  - split; [|split].
    + apply (bool_decide_unpack _). vm_compute. exact I.
    + reflexivity.
    + reflexivity.
Defined.

(** ** What the mapped vectors and the histogram hold *)

Lemma filaDe_lookup B W x fila (j : nat) :
  filaDe B W x = Some fila → (j < Z.to_nat B)%nat →
  fila !! j
  = Some (if decide (calcularIndiceRango B x W = Some (Z.of_nat j)) then 1 else 0).
Proof.
  intros (b & Hb & Hr & ->)%filaDe_Some Hj. rewrite Hb.
  destruct (decide (Z.to_nat b = j)) as [<-|Hne].
  - rewrite list_lookup_insert_eq by (rewrite ceros_length; lia).
    rewrite decide_True; [done|]. f_equal. lia.
  - rewrite list_lookup_insert_ne by done.
    unfold ceros. rewrite lookup_replicate_2 by lia.
    rewrite decide_False; [done|]. intros [= ->]. lia.
Qed.

Lemma cuenta_cons B W j x xs :
  cuenta B W j (x :: xs)
  = (if decide (calcularIndiceRango B x W = Some j) then 1 else 0)
    + cuenta B W j xs.
Proof.
  unfold cuenta. case_decide as Hx.
  - rewrite filter_cons_True by done. simpl. lia.
  - rewrite filter_cons_False by done. lia.
Qed.

Lemma sumaFilas_cuenta B W xs filas inicio (j : nat) :
  Forall2 (λ x f, filaDe B W x = Some f) xs filas →
  length inicio = Z.to_nat B → (j < Z.to_nat B)%nat →
  sumaFilas inicio filas !! j
  = (λ v, v + cuenta B W (Z.of_nat j) xs) <$> inicio !! j.
Proof.
  intros Hf. revert inicio.
  induction Hf as [|x f xs filas Hx _ IH]; intros inicio Hlen Hj.
  - simpl. destruct (inicio !! j) as [v|]; simpl; [|done].
    f_equal. unfold cuenta. simpl. lia.
  - cbn [sumaFilas foldl]. fold (sumaFilas (sumaVec inicio f) filas).
    pose proof (filaDe_length _ _ _ _ Hx) as Hlf.
    rewrite IH by (rewrite ?sumaVec_length; lia).
    destruct (lookup_lt_is_Some_2 inicio j) as [v Hv]; [lia|].
    rewrite (sumaVec_lookup _ _ _ _ _ Hv (filaDe_lookup _ _ _ _ _ Hx Hj)), Hv.
    simpl. f_equal. rewrite cuenta_cons. lia.
Qed.

(** X7: the mapped vectors.  After a run of either backend on an input
    whose number of elements is an [int], [valoresMapeados] has one vector
    per input value, and the vector of the value [x] at position [k] is
    one-hot: it has [B] entries, a one at the index the classifier gives for
    [x] and zeros elsewhere. *)
Theorem valoresMapeados_un_uno
    (B W : Z) (xs : list Z) (plan : Planificacion) (m : Memoria) (k : nat) (x : Z) :
  Z.of_nat (length xs) ≤ INT_MAX →
  planificacion_valida B (Z.of_nat (length xs)) plan →
  ejecutarSecuencial B xs W = Some m ∨ ejecutarParalelo B plan xs W = Some m →
  xs !! k = Some x →
  length (valoresMapeados m) = length xs
  ∧ ∃ b fila, calcularIndiceRango B x W = Some b ∧ 0 ≤ b < B
      ∧ valoresMapeados m !! k = Some fila
      ∧ length fila = Z.to_nat B
      ∧ ∀ j, 0 ≤ j < B →
          leer fila j = Some (if decide (j = b) then 1 else 0).
Proof.
  intros _ Hplan Hm Hk. apply ejecucion_resultado in Hm; [|done].
  apply resultado_Some in Hm as (_ & Hf & _).
  split; [symmetry; by eapply length_mapM|].
  apply mapM_Some_1 in Hf.
  destruct (Forall2_lookup_l _ _ _ _ _ Hf Hk) as (fila & Hfila & Hx).
  destruct (filaDe_Some _ _ _ _ Hx) as (b & Hb & Hr & _).
  exists b, fila. split; [done|]. split; [done|]. split; [done|].
  split; [by eapply filaDe_length|].
  intros j Hj. unfold leer. rewrite decide_True by lia.
  rewrite (filaDe_lookup _ _ _ _ _ Hx) by lia. rewrite Hb, Z2Nat.id by lia.
  f_equal. repeat case_decide; congruence.
Qed.

Lemma valoresMapeados_un_uno_testigo :
  length (valoresMapeados memoria_demo) = length datos_demo
  ∧ ∃ b fila, calcularIndiceRango CANTIDAD_RANGOS 70 TAMANO_RANGO = Some b
      ∧ 0 ≤ b < CANTIDAD_RANGOS
      ∧ valoresMapeados memoria_demo !! 2%nat = Some fila
      ∧ length fila = Z.to_nat CANTIDAD_RANGOS
      ∧ ∀ j, 0 ≤ j < CANTIDAD_RANGOS →
          leer fila j = Some (if decide (j = b) then 1 else 0).
Proof.
  apply (valoresMapeados_un_uno CANTIDAD_RANGOS TAMANO_RANGO datos_demo plan_demo
           memoria_demo 2 70).
  - vm_compute; discriminate.
  - split; [|split].
    + apply (bool_decide_unpack _). vm_compute. exact I.
    + reflexivity.
    + reflexivity.
  - left. reflexivity.
  - reflexivity.
Defined.

(** X8: the histogram counts.  After a run of either backend on an input
    whose number of elements is an [int], the entry [j] of [histograma], for
    every bucket [j] of [0, B), is the number of input values the classifier
    sends to [j]. *)
Theorem histograma_cuenta
    (B W : Z) (xs : list Z) (plan : Planificacion) (m : Memoria) (j : Z) :
  Z.of_nat (length xs) ≤ INT_MAX →
  planificacion_valida B (Z.of_nat (length xs)) plan →
  ejecutarSecuencial B xs W = Some m ∨ ejecutarParalelo B plan xs W = Some m →
  0 ≤ j < B →
  leer (histograma m) j = Some (cuenta B W j xs).
Proof.
  intros _ Hplan Hm Hj. apply ejecucion_resultado in Hm; [|done].
  apply resultado_Some in Hm as (_ & Hf & -> & _).
  apply mapM_Some_1 in Hf. unfold leer. rewrite decide_True by lia.
  rewrite (sumaFilas_cuenta B W xs) by (done || apply ceros_length || lia).
  unfold ceros. rewrite lookup_replicate_2 by lia. simpl.
  by rewrite Z2Nat.id by lia.
Qed.

Lemma histograma_cuenta_testigo :
  leer (histograma memoria_demo) 1
  = Some (cuenta CANTIDAD_RANGOS TAMANO_RANGO 1 datos_demo).
Proof.
  apply (histograma_cuenta CANTIDAD_RANGOS TAMANO_RANGO datos_demo plan_demo
           memoria_demo 1).
  - vm_compute; discriminate.
  - split; [|split].
    + apply (bool_decide_unpack _). vm_compute. exact I.
    + reflexivity.
    + reflexivity.
  - right. reflexivity.
  - vm_compute. intuition discriminate.
Defined.

(** ** What the cumulative histogram holds *)

Lemma prefijos_diferencia s l (k : nat) a b x :
  prefijos s l !! k = Some a → prefijos s l !! S k = Some b →
  l !! S k = Some x → b = a + x.
Proof.
  revert s k. induction l as [|y l IH]; intros s k; [done|].
  destruct k as [|k]; simpl.
  - intros [= <-]. destruct l as [|z l]; simpl; [done|]. by intros [= <-] [= <-].
  - apply IH.
Qed.

(** X9: the cumulative histogram is the inclusive prefix sum of the
    histogram: after a run of either backend, for every bucket [j] of
    [0, B), the entry [j] of [histogramaAcumulado] is the sum of the entries
    [0] to [j] of [histograma]. *)
Theorem acumulado_prefijo
    (B W : Z) (xs : list Z) (plan : Planificacion) (m : Memoria) (j : Z) :
  planificacion_valida B (Z.of_nat (length xs)) plan →
  ejecutarSecuencial B xs W = Some m ∨ ejecutarParalelo B plan xs W = Some m →
  0 ≤ j < B →
  leer (histogramaAcumulado m) j
  = Some (sumaZ (tramoDe 0 (j + 1) (histograma m))).
Proof.
  intros Hplan Hm Hj. apply ejecucion_resultado in Hm; [|done].
  destruct (resultado_histograma _ _ _ _ Hm) as (Hlen & _ & _).
  apply resultado_Some in Hm as (_ & _ & _ & ->).
  unfold leer. rewrite decide_True by lia.
  rewrite prefijos_lookup by lia. unfold tramoDe.
  rewrite drop_0, Z.add_0_l. do 3 f_equal. lia.
Qed.

Lemma acumulado_prefijo_testigo :
  leer (histogramaAcumulado memoria_demo) 2
  = Some (sumaZ (tramoDe 0 (2 + 1) (histograma memoria_demo))).
Proof.
  apply (acumulado_prefijo CANTIDAD_RANGOS TAMANO_RANGO datos_demo plan_demo
           memoria_demo 2).
  - split; [|split].
    + apply (bool_decide_unpack _). vm_compute. exact I.
    + reflexivity.
    + reflexivity.
  - left. reflexivity.
  - vm_compute. intuition discriminate.
Defined.

(** X10: the histogram can be read back from the cumulative histogram.
    After a run of either backend the first entries of the two arrays are
    equal, and for every bucket [j] with [0 < j < B] the difference of the
    entries [j] and [j - 1] of [histogramaAcumulado] is the entry [j] of
    [histograma]. *)
Theorem acumulado_diferencias
    (B W : Z) (xs : list Z) (plan : Planificacion) (m : Memoria) (j : Z) :
  planificacion_valida B (Z.of_nat (length xs)) plan →
  ejecutarSecuencial B xs W = Some m ∨ ejecutarParalelo B plan xs W = Some m →
  0 < j < B →
  leer (histogramaAcumulado m) 0 = leer (histograma m) 0
  ∧ ∃ a b h,
      leer (histogramaAcumulado m) (j - 1) = Some a
      ∧ leer (histogramaAcumulado m) j = Some b
      ∧ leer (histograma m) j = Some h
      ∧ b - a = h.
Proof.
  intros Hplan Hm Hj. apply ejecucion_resultado in Hm; [|done].
  destruct (resultado_histograma _ _ _ _ Hm) as (Hlen & _ & _).
  apply resultado_Some in Hm as (_ & _ & _ & Hha).
  assert (length (histogramaAcumulado m) = Z.to_nat B) as Hlha
    by (by rewrite Hha, prefijos_length).
  split.
  - rewrite Hha. unfold leer. rewrite !decide_True by lia.
    destruct (histograma m) as [|h0 h']; simpl; [done|]. by rewrite Z.add_0_l.
  - destruct (lookup_lt_is_Some_2 (histogramaAcumulado m) (Z.to_nat (j - 1)))
      as [a Ha]; [lia|].
    destruct (lookup_lt_is_Some_2 (histogramaAcumulado m) (Z.to_nat j))
      as [b Hb]; [lia|].
    destruct (lookup_lt_is_Some_2 (histograma m) (Z.to_nat j)) as [h Hh]; [lia|].
    exists a, b, h. unfold leer. rewrite !decide_True by lia.
    split; [done|]. split; [done|]. split; [done|].
    rewrite Hha in Ha, Hb.
    replace (Z.to_nat j) with (S (Z.to_nat (j - 1))) in Hb, Hh by lia.
    pose proof (prefijos_diferencia _ _ _ _ _ _ Ha Hb Hh). lia.
Qed.

Lemma acumulado_diferencias_testigo :
  leer (histogramaAcumulado memoria_demo) 0 = leer (histograma memoria_demo) 0
  ∧ ∃ a b h,
      leer (histogramaAcumulado memoria_demo) (3 - 1) = Some a
      ∧ leer (histogramaAcumulado memoria_demo) 3 = Some b
      ∧ leer (histograma memoria_demo) 3 = Some h
      ∧ b - a = h.
Proof.
  apply (acumulado_diferencias CANTIDAD_RANGOS TAMANO_RANGO datos_demo plan_demo
           memoria_demo 3).
  - split; [|split].
    + apply (bool_decide_unpack _). vm_compute. exact I.
    + reflexivity.
    + reflexivity.
  - right. reflexivity.
  - vm_compute. intuition discriminate.
Defined.

(** X11: every entry of the histogram and of the cumulative histogram of a
    run of either backend lies between zero and the number [N] of input
    values, and both arrays have [B] entries. *)
Theorem histogramas_acotados
    (B W : Z) (xs : list Z) (plan : Planificacion) (m : Memoria) :
  planificacion_valida B (Z.of_nat (length xs)) plan →
  ejecutarSecuencial B xs W = Some m ∨ ejecutarParalelo B plan xs W = Some m →
  length (histograma m) = Z.to_nat B
  ∧ length (histogramaAcumulado m) = Z.to_nat B
  ∧ Forall (λ v, 0 ≤ v ≤ Z.of_nat (length xs)) (histograma m)
  ∧ Forall (λ v, 0 ≤ v ≤ Z.of_nat (length xs)) (histogramaAcumulado m).
Proof.
  intros Hplan Hm. apply ejecucion_resultado in Hm; [|done].
  destruct (resultado_histograma _ _ _ _ Hm) as (Hlen & Hpos & Hsum).
  apply resultado_Some in Hm as (_ & _ & _ & Hha).
  split; [done|]. split; [by rewrite Hha, prefijos_length|]. split.
  - apply Forall_forall. intros v Hv.
    pose proof (sumaZ_cota _ _ Hpos Hv). lia.
  - rewrite Hha. eapply Forall_impl; [by apply prefijos_cota|]. simpl. lia.
Qed.

Lemma histogramas_acotados_testigo :
  length (histograma memoria_demo) = Z.to_nat CANTIDAD_RANGOS
  ∧ length (histogramaAcumulado memoria_demo) = Z.to_nat CANTIDAD_RANGOS
  ∧ Forall (λ v, 0 ≤ v ≤ Z.of_nat (length datos_demo)) (histograma memoria_demo)
  ∧ Forall (λ v, 0 ≤ v ≤ Z.of_nat (length datos_demo))
      (histogramaAcumulado memoria_demo).
Proof.
  apply (histogramas_acotados CANTIDAD_RANGOS TAMANO_RANGO datos_demo plan_demo
           memoria_demo).
  - split; [|split].
    + apply (bool_decide_unpack _). vm_compute. exact I.
    + reflexivity.
    + reflexivity.
  - left. reflexivity.
Defined.

(** ** The cumulative histogram as a count of values *)

Lemma sumaZ_take_sumaVec n a b :
  length a = length b →
  sumaZ (take n (sumaVec a b)) = sumaZ (take n a) + sumaZ (take n b).
Proof.
  intros Hlen. unfold sumaVec. rewrite zip_with_take.
  apply sumaZ_sumaVec. rewrite !length_take. lia.
Qed.

Lemma filaDe_suma_hasta B W x b fila (n : nat) :
  calcularIndiceRango B x W = Some b → filaDe B W x = Some fila →
  (n ≤ Z.to_nat B)%nat →
  sumaZ (take n fila) = if decide (b < Z.of_nat n) then 1 else 0.
Proof.
  intros Hb (b' & Hb' & Hr & ->)%filaDe_Some Hn.
  assert (b' = b) as -> by congruence. unfold ceros. case_decide as Hlt.
  - rewrite take_insert_lt by lia. rewrite (sumaZ_insert _ _ 0).
    + rewrite take_replicate, sumaZ_replicate_0. lia.
    + rewrite take_replicate. apply lookup_replicate_2. lia.
  - rewrite take_insert_ge by lia.
    by rewrite take_replicate, sumaZ_replicate_0.
Qed.

(** Below the last bucket, the bucket of a value that is not negative is at
    most [j] exactly when the value is at most [(j + 1) * W]. *)
Lemma indice_hasta B W x b j :
  1 ≤ W → 0 ≤ x → 0 ≤ j < B - 1 →
  calcularIndiceRango B x W = Some b → (b ≤ j ↔ x ≤ (j + 1) * W).
Proof.
  intros HW Hx Hj. rewrite calcularIndiceRango_positivo by done.
  intros [= <-]. case_decide as Hx0.
  - pose proof (cociente_positivo W x ((x - 1) `quot` W) HW ltac:(lia)) as [Hq _].
    specialize (Hq eq_refl). split; [intros; nia|].
    intros Hle. assert ((x - 1) `quot` W ≤ j) by nia. lia.
  - assert (x = 0) as -> by lia. rewrite Z.quot_0_l by lia. split; [nia|lia].
Qed.

Lemma cuentaHasta_cons c x xs :
  cuentaHasta c (x :: xs) = (if decide (x ≤ c) then 1 else 0) + cuentaHasta c xs.
Proof.
  unfold cuentaHasta. case_decide as Hx.
  - rewrite filter_cons_True by done. simpl. lia.
  - rewrite filter_cons_False by done. lia.
Qed.

Lemma sumaFilas_hasta B W xs filas inicio j :
  1 ≤ W → 0 ≤ j < B - 1 →
  Forall2 (λ x f, filaDe B W x = Some f) xs filas →
  Forall (λ x, 0 ≤ x) xs → length inicio = Z.to_nat B →
  sumaZ (take (Z.to_nat (j + 1)) (sumaFilas inicio filas))
  = sumaZ (take (Z.to_nat (j + 1)) inicio) + cuentaHasta ((j + 1) * W) xs.
Proof.
  intros HW Hj Hf. revert inicio.
  induction Hf as [|x f xs filas Hx _ IH]; intros inicio Hxs Hlen.
  - unfold cuentaHasta. simpl. lia.
  - cbn [sumaFilas foldl]. fold (sumaFilas (sumaVec inicio f) filas).
    apply Forall_cons in Hxs as [Hx0 Hxs].
    pose proof (filaDe_length _ _ _ _ Hx) as Hlf.
    rewrite IH by (rewrite ?sumaVec_length; done || lia).
    rewrite sumaZ_take_sumaVec by lia. rewrite cuentaHasta_cons.
    destruct (filaDe_Some _ _ _ _ Hx) as (b & Hb & _ & _).
    rewrite (filaDe_suma_hasta B W x b f) by (done || lia).
    pose proof (indice_hasta B W x b j HW Hx0 Hj Hb).
    repeat case_decide; lia.
Qed.

(** X12: the cumulative histogram as a count of values.  With a width
    [W >= 1] and input values that are not negative, their number being an
    [int], after a run of either backend the entry [j] of
    [histogramaAcumulado], for every bucket [j] below the last one, is the
    number of input values that are at most [(j + 1) * W]. *)
Theorem acumulado_cuenta
    (B W : Z) (xs : list Z) (plan : Planificacion) (m : Memoria) (j : Z) :
  Z.of_nat (length xs) ≤ INT_MAX →
  1 ≤ W → Forall (λ x, 0 ≤ x) xs →
  planificacion_valida B (Z.of_nat (length xs)) plan →
  ejecutarSecuencial B xs W = Some m ∨ ejecutarParalelo B plan xs W = Some m →
  0 ≤ j < B - 1 →
  leer (histogramaAcumulado m) j = Some (cuentaHasta ((j + 1) * W) xs).
Proof.
  intros _ HW Hxs Hplan Hm Hj. apply ejecucion_resultado in Hm; [|done].
  destruct (resultado_histograma _ _ _ _ Hm) as (Hlen & _ & _).
  apply resultado_Some in Hm as (_ & Hf & Hh & ->).
  apply mapM_Some_1 in Hf.
  unfold leer. rewrite decide_True by lia.
  rewrite prefijos_lookup by lia. rewrite Z.add_0_l. f_equal.
  replace (S (Z.to_nat j)) with (Z.to_nat (j + 1)) by lia.
  rewrite Hh, (sumaFilas_hasta B W xs) by (done || apply ceros_length).
  unfold ceros. rewrite take_replicate, sumaZ_replicate_0. lia.
Qed.

Lemma acumulado_cuenta_testigo :
  leer (histogramaAcumulado memoria_demo) 1
  = Some (cuentaHasta ((1 + 1) * TAMANO_RANGO) datos_demo).
Proof.
  apply (acumulado_cuenta CANTIDAD_RANGOS TAMANO_RANGO datos_demo plan_demo
           memoria_demo 1).
  - vm_compute; discriminate.
  - vm_compute; discriminate.
  - apply (bool_decide_unpack _). vm_compute. exact I.
  - split; [|split].
    + apply (bool_decide_unpack _). vm_compute. exact I.
    + reflexivity.
    + reflexivity.
  - left. reflexivity.
  - vm_compute. intuition discriminate.
Defined.

(** ** Inputs put together *)

Lemma mapM_concatenado {A C : Type} (f : A → option C) (xs ys : list A) :
  mapM f (xs ++ ys) = rs ← mapM f xs; ss ← mapM f ys; Some (rs ++ ss).
Proof.
  induction xs as [|x xs IH]; cbn [mapM app].
  - simpl. by destruct (mapM f ys).
  - destruct (f x) as [r|]; simpl; [|done]. rewrite IH.
    destruct (mapM f xs) as [rs|]; simpl; [|done].
    by destruct (mapM f ys).
Qed.

Lemma prefijos_sumaVec s t a b :
  prefijos (s + t) (sumaVec a b) = sumaVec (prefijos s a) (prefijos t b).
Proof.
  unfold sumaVec. revert s t b.
  induction a as [|x a IH]; intros s t [|y b]; simpl; [done..|].
  replace (s + t + (x + y)) with ((s + x) + (t + y)) by lia.
  by rewrite IH.
Qed.

(** X13: the histograms of a concatenation.  When the runs on [xs] and on
    [ys] have results and the number of elements of [xs ++ ys] is an [int],
    the run of either backend on [xs ++ ys] has one too:
    its mapped vectors are those of [xs] followed by those of [ys], and its
    histogram and its cumulative histogram are the element-wise sums of
    those of the two runs. *)
Theorem ejecucion_concatenada
    (B W : Z) (xs ys : list Z) (plan : Planificacion) (m1 m2 : Memoria) :
  Z.of_nat (length (xs ++ ys)) ≤ INT_MAX →
  ejecutarSecuencial B xs W = Some m1 → ejecutarSecuencial B ys W = Some m2 →
  planificacion_valida B (Z.of_nat (length (xs ++ ys))) plan →
  ∃ m, ejecutarSecuencial B (xs ++ ys) W = Some m
       ∧ ejecutarParalelo B plan (xs ++ ys) W = Some m
       ∧ valoresMapeados m = valoresMapeados m1 ++ valoresMapeados m2
       ∧ histograma m = sumaVec (histograma m1) (histograma m2)
       ∧ histogramaAcumulado m
         = sumaVec (histogramaAcumulado m1) (histogramaAcumulado m2).
Proof.
  intros _ H1 H2 Hplan.
  rewrite ejecutarSecuencial_forma in H1, H2.
  rewrite ejecutarSecuencial_forma, ejecutarParalelo_forma by done.
  pose proof (resultado_Some _ _ _ _ H1) as (_ & Hf1 & Hh1 & Hha1).
  pose proof (resultado_Some _ _ _ _ H2) as (_ & Hf2 & Hh2 & Hha2).
  unfold resultado. rewrite mapM_concatenado, Hf1, Hf2. simpl.
  eexists; split; [done|]. split; [done|]. simpl.
  assert (sumaFilas (ceros B) (valoresMapeados m1 ++ valoresMapeados m2)
          = sumaVec (histograma m1) (histograma m2)) as ->.
  { rewrite sumaFilas_app, <- Hh1, Hh2.
    apply (sumaFilas_desde (Z.to_nat B)); [|by eapply filas_length].
    by destruct (resultado_histograma _ _ _ _ H1). }
  split; [done|]. split; [done|].
  rewrite Hha1, Hha2. apply (prefijos_sumaVec 0 0).
Qed.

Lemma ejecucion_concatenada_testigo :
  ∃ m, ejecutarSecuencial CANTIDAD_RANGOS
         ([10; 40; 70; 100; 120; 0] ++ [30; 60; 90; 115]) TAMANO_RANGO = Some m
       ∧ ejecutarParalelo CANTIDAD_RANGOS plan_demo
           ([10; 40; 70; 100; 120; 0] ++ [30; 60; 90; 115]) TAMANO_RANGO = Some m
       ∧ valoresMapeados m
         = [[1; 0; 0; 0]; [0; 1; 0; 0]; [0; 0; 1; 0]; [0; 0; 0; 1]; [0; 0; 0; 1];
            [1; 0; 0; 0]]
           ++ [[1; 0; 0; 0]; [0; 1; 0; 0]; [0; 0; 1; 0]; [0; 0; 0; 1]]
       ∧ histograma m = sumaVec [2; 1; 1; 2] [1; 1; 1; 1]
       ∧ histogramaAcumulado m = sumaVec [2; 3; 4; 6] [1; 2; 3; 4].
Proof.
  apply (ejecucion_concatenada CANTIDAD_RANGOS TAMANO_RANGO
           [10; 40; 70; 100; 120; 0] [30; 60; 90; 115] plan_demo
           {| datos := [10; 40; 70; 100; 120; 0];
              valoresMapeados :=
                [[1; 0; 0; 0]; [0; 1; 0; 0]; [0; 0; 1; 0]; [0; 0; 0; 1];
                 [0; 0; 0; 1]; [1; 0; 0; 0]];
              histograma := [2; 1; 1; 2];
              histogramaAcumulado := [2; 3; 4; 6] |}
           {| datos := [30; 60; 90; 115];
              valoresMapeados :=
                [[1; 0; 0; 0]; [0; 1; 0; 0]; [0; 0; 1; 0]; [0; 0; 0; 1]];
              histograma := [1; 1; 1; 1];
              histogramaAcumulado := [1; 2; 3; 4] |}).
  - vm_compute; discriminate.
  - reflexivity.
  - reflexivity.
  - split; [|split].
    + apply (bool_decide_unpack _). vm_compute. exact I.
    + reflexivity.
    + reflexivity.
Defined.

(** ** The operations of the parallel reduction *)

(** X14: the combination lambda of the [parallel_reduce] is what a reduction
    needs.  On vectors of [B] entries that are [int]s, and whose element-wise
    sums [a + b], [b + c] and [a + b + c] are [int]s too, it has a result, it
    is commutative and associative, and the zero vector, the identity handed
    to [parallel_reduce], is neutral on both sides. *)
Theorem combinar_monoide (B : Z) (a b c : list Z) :
  length a = Z.to_nat B → length b = Z.to_nat B → length c = Z.to_nat B →
  Forall es_int a → Forall es_int b → Forall es_int c →
  Forall es_int (sumaVec a b) → Forall es_int (sumaVec b c) →
  Forall es_int (sumaVec (sumaVec a b) c) →
  is_Some (combinar B a b)
  ∧ combinar B a b = combinar B b a
  ∧ (ab ← combinar B a b; combinar B ab c)
    = (bc ← combinar B b c; combinar B a bc)
  ∧ combinar B (ceros B) a = Some a
  ∧ combinar B a (ceros B) = Some a.
Proof.
  intros Ha Hb Hc _ _ _ _ _ _.
  rewrite !(combinar_forma B a b), !(combinar_forma B b a),
    !(combinar_forma B b c) by done. cbn [mbind option_bind].
  rewrite !combinar_forma
    by (done || apply ceros_length || (rewrite sumaVec_length; lia)).
  split; [done|]. split; [by rewrite sumaVec_comm|].
  split; [by rewrite sumaVec_assoc|]. unfold ceros.
  by rewrite sumaVec_ceros_l, sumaVec_ceros_r.
Qed.

Lemma combinar_monoide_testigo :
  is_Some (combinar CANTIDAD_RANGOS [1; 0; 2; 0] [0; 3; 0; 1])
  ∧ combinar CANTIDAD_RANGOS [1; 0; 2; 0] [0; 3; 0; 1]
    = combinar CANTIDAD_RANGOS [0; 3; 0; 1] [1; 0; 2; 0]
  ∧ (ab ← combinar CANTIDAD_RANGOS [1; 0; 2; 0] [0; 3; 0; 1];
     combinar CANTIDAD_RANGOS ab [5; 5; 5; 5])
    = (bc ← combinar CANTIDAD_RANGOS [0; 3; 0; 1] [5; 5; 5; 5];
       combinar CANTIDAD_RANGOS [1; 0; 2; 0] bc)
  ∧ combinar CANTIDAD_RANGOS (ceros CANTIDAD_RANGOS) [1; 0; 2; 0]
    = Some [1; 0; 2; 0]
  ∧ combinar CANTIDAD_RANGOS [1; 0; 2; 0] (ceros CANTIDAD_RANGOS)
    = Some [1; 0; 2; 0].
Proof.
  apply (combinar_monoide CANTIDAD_RANGOS [1; 0; 2; 0] [0; 3; 0; 1] [5; 5; 5; 5]);
    try reflexivity;
    unfold es_int; apply (bool_decide_unpack _); vm_compute; exact I.
Defined.

(** X15: the partial reduction lambda can be split.  On mapped vectors of
    [B] entries and a sub-range [lo, hi) of the positions cut at [mid], when
    the vectors added up on the way are vectors of [int]s (the sums of
    [parcial] and the mapped vectors of [lo, i) for every [i] up to [hi],
    and the sums of the mapped vectors of [mid, i)), reducing [lo, hi) from
    [parcial] has a result, it is reducing [lo, mid) from [parcial] and going
    on over [mid, hi) with the value obtained, and it is also combining that
    value with the reduction of [mid, hi) from the zero vector. *)
Theorem cuerpoReduccion_partido (B lo mid hi : Z) (m : Memoria) (parcial : list Z) :
  Forall (λ f, length f = Z.to_nat B) (valoresMapeados m) →
  0 ≤ lo ≤ mid → mid ≤ hi → hi ≤ Z.of_nat (length (valoresMapeados m)) →
  length parcial = Z.to_nat B →
  Forall (Forall es_int) (valoresMapeados m) →
  (∀ i, lo ≤ i ≤ hi →
     Forall es_int (sumaFilas parcial (tramoDe lo i (valoresMapeados m)))) →
  (∀ i, mid ≤ i ≤ hi →
     Forall es_int (sumaFilas (ceros B) (tramoDe mid i (valoresMapeados m)))) →
  is_Some (cuerpoReduccion B m lo hi parcial)
  ∧ cuerpoReduccion B m lo hi parcial
    = (p ← cuerpoReduccion B m lo mid parcial; cuerpoReduccion B m mid hi p)
  ∧ cuerpoReduccion B m lo hi parcial
    = (p ← cuerpoReduccion B m lo mid parcial;
       q ← cuerpoReduccion B m mid hi (ceros B);
       combinar B p q).
Proof.
  intros Hf Hlo Hmid Hhi Hp _ _ _.
  assert (∀ a b, Forall (λ f, length f = Z.to_nat B)
                   (tramoDe a b (valoresMapeados m))) as Hft.
  { intros a b. unfold tramoDe. by apply Forall_take, Forall_drop. }
  rewrite (cuerpoReduccion_forma B m lo hi),
    (cuerpoReduccion_forma B m lo mid) by (done || lia).
  cbn [mbind option_bind].
  rewrite !(cuerpoReduccion_forma B m mid hi)
    by (done || lia || apply ceros_length || by apply sumaFilas_length).
  cbn [mbind option_bind].
  rewrite combinar_forma
    by (apply sumaFilas_length; done || apply ceros_length).
  rewrite <- (tramoDe_app lo mid hi) by lia. rewrite sumaFilas_app.
  split; [done|]. split; [done|]. f_equal.
  apply (sumaFilas_desde (Z.to_nat B)); [by apply sumaFilas_length|done].
Qed.

Lemma cuerpoReduccion_partido_testigo :
  is_Some (cuerpoReduccion CANTIDAD_RANGOS memoria_demo 2 9 [0; 0; 0; 0])
  ∧ cuerpoReduccion CANTIDAD_RANGOS memoria_demo 2 9 [0; 0; 0; 0]
    = (p ← cuerpoReduccion CANTIDAD_RANGOS memoria_demo 2 5 [0; 0; 0; 0];
       cuerpoReduccion CANTIDAD_RANGOS memoria_demo 5 9 p)
  ∧ cuerpoReduccion CANTIDAD_RANGOS memoria_demo 2 9 [0; 0; 0; 0]
    = (p ← cuerpoReduccion CANTIDAD_RANGOS memoria_demo 2 5 [0; 0; 0; 0];
       q ← cuerpoReduccion CANTIDAD_RANGOS memoria_demo 5 9
             (ceros CANTIDAD_RANGOS);
       combinar CANTIDAD_RANGOS p q).
Proof.
  apply (cuerpoReduccion_partido CANTIDAD_RANGOS 2 5 9 memoria_demo [0; 0; 0; 0]).
  - apply (bool_decide_unpack _). vm_compute. exact I.
  - lia.
  - lia.
  - vm_compute; discriminate.
  - reflexivity.
  - unfold es_int. apply (bool_decide_unpack _). vm_compute. exact I.
  - intros i Hi.
    assert (i = 2 ∨ i = 3 ∨ i = 4 ∨ i = 5 ∨ i = 6 ∨ i = 7 ∨ i = 8 ∨ i = 9)
      as [-> | [-> | [-> | [-> | [-> | [-> | [-> | ->]]]]]]] by lia;
      unfold es_int; apply (bool_decide_unpack _); vm_compute; exact I.
  - intros i Hi.
    assert (i = 5 ∨ i = 6 ∨ i = 7 ∨ i = 8 ∨ i = 9)
      as [-> | [-> | [-> | [-> | ->]]]] by lia;
      unfold es_int; apply (bool_decide_unpack _); vm_compute; exact I.
Defined.

(** ** The iterations of the parallel mapping *)

(** X16: the iterations of the mapping loop do not depend on one another.
    Two of them commute on every store, and running them once each in any
    order [ks] of the indices of [0, n) gives what the loop from [0] to [n]
    gives, the same store or no result at all. *)
Theorem mapeo_orden_libre (B W n : Z) (ks : list Z) (m : Memoria) :
  ks ≡ₚ seqZ 0 n →
  para_cada ks (cuerpoMapeo B W) m = bucle 0 n (cuerpoMapeo B W) m
  ∧ ∀ i j m',
      cuerpoMapeo B W i m' ≫= cuerpoMapeo B W j
      = cuerpoMapeo B W j m' ≫= cuerpoMapeo B W i.
Proof.
  intros Hperm. split; [by apply mapeo_cualquier_orden|].
  intros i j m'. apply cuerpoMapeo_conmuta.
Qed.

Lemma mapeo_orden_libre_testigo :
  para_cada [3; 0; 2; 1] (cuerpoMapeo CANTIDAD_RANGOS TAMANO_RANGO)
    (memoriaInicial CANTIDAD_RANGOS [10; 40; 70; 100])
  = bucle 0 4 (cuerpoMapeo CANTIDAD_RANGOS TAMANO_RANGO)
      (memoriaInicial CANTIDAD_RANGOS [10; 40; 70; 100]).
Proof.
  apply (mapeo_orden_libre CANTIDAD_RANGOS TAMANO_RANGO 4 [3; 0; 2; 1]
           (memoriaInicial CANTIDAD_RANGOS [10; 40; 70; 100])).
  apply (bool_decide_unpack _). vm_compute. exact I.
Defined.

(** ** The empty input *)

(** X17: on the empty input a run of either backend has a result, whatever
    the width, zero included: no value is classified, and the mapped vectors
    are none, the histogram and the cumulative histogram all zero. *)
Theorem entrada_vacia (B W : Z) (plan : Planificacion) :
  planificacion_valida B 0 plan →
  ejecutarSecuencial B [] W = Some (memoriaInicial B [])
  ∧ ejecutarParalelo B plan [] W = Some (memoriaInicial B []).
Proof.
  intros Hplan.
  rewrite ejecutarSecuencial_forma, (ejecutarParalelo_forma B W plan []) by done.
  unfold resultado, memoriaInicial, ceros. simpl. by rewrite prefijos_ceros.
Qed.

Lemma entrada_vacia_testigo :
  ejecutarSecuencial CANTIDAD_RANGOS [] 7 = Some (memoriaInicial CANTIDAD_RANGOS [])
  ∧ ejecutarParalelo CANTIDAD_RANGOS
      {| plan_mapeo := []; plan_reduccion := Hoja 0 0;
         plan_escaneo := [tramo 0 4 false] |} [] 7
    = Some (memoriaInicial CANTIDAD_RANGOS []).
Proof.
  apply (entrada_vacia CANTIDAD_RANGOS 7
           {| plan_mapeo := []; plan_reduccion := Hoja 0 0;
              plan_escaneo := [tramo 0 4 false] |}).
  split; [|split].
  - apply (bool_decide_unpack _). vm_compute. exact I.
  - reflexivity.
  - reflexivity.
Defined.

(** ** Input generation and [main] *)

(** X18: the generated data.  For a number of elements that is not negative
    [generarNumerosAleatorios] returns that many values, the value of
    position [k] being the smaller of [valorMaximo] and the number drawn for
    it, so none exceeds [valorMaximo]; when the numbers drawn are not
    negative and neither is [valorMaximo], all lie in [0, valorMaximo]. *)
Theorem generarNumerosAleatorios_acotado
    (muestra : nat → Z) (cantidad valorMaximo : Z) :
  0 ≤ cantidad →
  ∃ l, generarNumerosAleatorios muestra cantidad valorMaximo = Some l
       ∧ Z.of_nat (length l) = cantidad
       ∧ (∀ k x, l !! k = Some x → x = valorMaximo `min` muestra k)
       ∧ Forall (λ x, x ≤ valorMaximo) l
       ∧ ((∀ k, 0 ≤ muestra k) → 0 ≤ valorMaximo →
          Forall (λ x, 0 ≤ x ≤ valorMaximo) l).
Proof.
  intros Hc. unfold generarNumerosAleatorios. rewrite decide_True by done.
  eexists; split; [done|]. split; [|split; [|split]].
  - rewrite length_fmap, length_seq. lia.
  - intros k x Hk. apply list_lookup_fmap_Some in Hk as (k' & -> & Hk').
    by apply lookup_seq in Hk' as [-> _].
  - apply Forall_fmap, Forall_forall. intros k _. simpl. lia.
  - intros Hm HV. apply Forall_fmap, Forall_forall. intros k _. simpl.
    specialize (Hm k). lia.
Qed.

Lemma generarNumerosAleatorios_acotado_testigo :
  ∃ l, generarNumerosAleatorios muestra_demo CANTIDAD_ELEMENTOS VALOR_MAXIMO
       = Some l
       ∧ Z.of_nat (length l) = CANTIDAD_ELEMENTOS
       ∧ (∀ k x, l !! k = Some x → x = VALOR_MAXIMO `min` muestra_demo k)
       ∧ Forall (λ x, x ≤ VALOR_MAXIMO) l
       ∧ ((∀ k, 0 ≤ muestra_demo k) → 0 ≤ VALOR_MAXIMO →
          Forall (λ x, 0 ≤ x ≤ VALOR_MAXIMO) l).
Proof.
  apply (generarNumerosAleatorios_acotado muestra_demo CANTIDAD_ELEMENTOS
           VALOR_MAXIMO).
  vm_compute; discriminate.
Defined.

(** The generated data of a non-negative stream. *)
Lemma generarNumerosAleatorios_dentro muestra cantidad valorMaximo :
  0 ≤ cantidad → (∀ k, 0 ≤ muestra k) → 0 ≤ valorMaximo →
  ∃ l, generarNumerosAleatorios muestra cantidad valorMaximo = Some l
       ∧ Z.of_nat (length l) = cantidad
       ∧ Forall (λ x, 0 ≤ x ≤ valorMaximo) l.
Proof.
  intros Hc Hm HV. unfold generarNumerosAleatorios. rewrite decide_True by done.
  eexists; split; [done|]. split.
  - rewrite length_fmap, length_seq. lia.
  - apply Forall_fmap, Forall_forall. intros k _. simpl.
    specialize (Hm k). lia.
Qed.

Lemma resultado_ultimo B W xs m :
  1 ≤ B → resultado B W xs = Some m →
  leer (histogramaAcumulado m) (B - 1) = Some (Z.of_nat (length xs)).
Proof.
  intros HB Hm.
  destruct (resultado_histograma _ _ _ _ Hm) as (Hlen & _ & Hsum).
  apply resultado_Some in Hm as (_ & _ & _ & ->).
  unfold leer. rewrite decide_True by lia. rewrite prefijos_lookup by lia.
  replace (S (Z.to_nat (B - 1))) with (length (histograma m)) by lia.
  by rewrite firstn_all, Hsum.
Qed.

(** X19: the program as a whole.  Whatever non-negative numbers the
    generator draws and whatever decomposition the scheduler chooses, [main]
    runs to its end: both backends have a result, the two results are the
    same store, the data they worked on are the ten generated values in
    ascending order, all in [0, 120], the histogram sums to ten and the last
    entry of the cumulative histogram is ten. *)
Theorem main_completo (muestra : nat → Z) (plan : Planificacion) :
  (∀ k, 0 ≤ muestra k) →
  planificacion_valida CANTIDAD_RANGOS CANTIDAD_ELEMENTOS plan →
  ∃ generados m,
    generarNumerosAleatorios muestra CANTIDAD_ELEMENTOS VALOR_MAXIMO
    = Some generados
    ∧ main muestra plan = Some (m, m)
    ∧ datos m ≡ₚ generados
    ∧ Sorted Z.le (datos m)
    ∧ Forall (λ x, 0 ≤ x ≤ VALOR_MAXIMO) (datos m)
    ∧ sumaZ (histograma m) = CANTIDAD_ELEMENTOS
    ∧ leer (histogramaAcumulado m) (CANTIDAD_RANGOS - 1)
      = Some CANTIDAD_ELEMENTOS.
Proof.
  intros Hm Hplan.
  destruct (generarNumerosAleatorios_dentro muestra CANTIDAD_ELEMENTOS VALOR_MAXIMO)
    as (l & Hl & Hlen & Hrango); [done..|].
  exists l. unfold main. rewrite Hl. cbn [mbind option_bind].
  assert (ordenar l ≡ₚ l) as Hperm by apply merge_sort_Permutation.
  assert (Z.of_nat (length (ordenar l)) = CANTIDAD_ELEMENTOS) as Hlen'
    by (by rewrite Hperm).
  destruct (ejecucion_definida CANTIDAD_RANGOS TAMANO_RANGO (ordenar l) plan)
    as (m & Hres & Hsec & Hpar); [done|done| |by rewrite Hlen'|].
  { rewrite Hperm. eapply Forall_impl; [done|]. simpl. lia. }
  pose proof (resultado_Some _ _ _ _ Hres) as (Hd & _).
  exists m. rewrite Hpar. cbn [mbind option_bind]. rewrite Hd, Hsec.
  split; [done|]. split; [done|]. split; [done|].
  split; [apply (Sorted_merge_sort Z.le)|].
  split; [by rewrite Hperm|].
  destruct (resultado_histograma _ _ _ _ Hres) as (_ & _ & Hsum).
  split; [by rewrite Hsum|].
  rewrite (resultado_ultimo CANTIDAD_RANGOS _ _ _ ltac:(done) Hres).
  by rewrite Hlen'.
Qed.

Lemma main_completo_testigo :
  ∃ generados m,
    generarNumerosAleatorios muestra_demo CANTIDAD_ELEMENTOS VALOR_MAXIMO
    = Some generados
    ∧ main muestra_demo plan_demo = Some (m, m)
    ∧ datos m ≡ₚ generados
    ∧ Sorted Z.le (datos m)
    ∧ Forall (λ x, 0 ≤ x ≤ VALOR_MAXIMO) (datos m)
    ∧ sumaZ (histograma m) = CANTIDAD_ELEMENTOS
    ∧ leer (histogramaAcumulado m) (CANTIDAD_RANGOS - 1)
      = Some CANTIDAD_ELEMENTOS.
Proof.
  apply (main_completo muestra_demo plan_demo).
  - intros k. unfold muestra_demo. lia.
  - split; [|split].
    + apply (bool_decide_unpack _). vm_compute. exact I.
    + reflexivity.
    + reflexivity.
Defined.
